(** * sl_list: an intrusive singly linked list (singly_linked_list.h)

    Shallow embedding of [sl_list::node<T>] and [sl_list::handler<T>] and
    the properties of their operations.

    Nodes live in caller-owned memory; the handler only stores [_head] and
    rewires [next_node] fields.  Memory is a finite map from addresses to
    node records, a node pointer is an optional address ([None] is
    [nullptr]), and every member function is a computation over the pair
    (memory, [_head]) that may also report diagnostics through the
    [INFO] / [WARN] / [ERROR] macros.  The two [while] loops are written with
    a fuel argument that counts entries into the loop body. *)

From stdpp Require Import gmap list.

Module sl_list.

(** ** Memory and nodes *)

(** [struct node { T *data; node *next_node; }].  A [node<T> *] is an
    optional address, [None] being [nullptr]; the payload pointer is opaque
    to the list and is kept as a bare address. *)
Record node := mk_node { data : N; next_node : option positive }.

(** The three logging macros; node-related reports carry the node handle. *)
Inductive diag :=
| INFO (p : option positive)
| WARN
| ERROR (p : option positive).

(** The part of the machine the handler works on: the nodes' memory and the
    handler's only field. *)
Record state := mk_state { mem : gmap positive node; _head : option positive }.

(** ** Computations *)

(** A call either returns a value in a new state together with the
    diagnostics it emitted, or dereferences an address that holds no node
    ([Fault]), or is cut off in a loop ([OutOfFuel]). *)
Inductive outcome (A : Type) :=
| Ok (a : A) (s : state) (log : list diag)
| Fault
| OutOfFuel.
Arguments Ok {A} a s log.
Arguments Fault {A}.
Arguments OutOfFuel {A}.

Definition M (A : Type) : Type := state -> outcome A.

Definition ret {A} (a : A) : M A := fun s => Ok a s [].

Definition bind {A B} (m : M A) (f : A -> M B) : M B :=
  fun s =>
    match m s with
    | Ok a s1 l1 =>
        match f a s1 with
        | Ok b s2 l2 => Ok b s2 (l1 ++ l2)
        | Fault => Fault
        | OutOfFuel => OutOfFuel
        end
    | Fault => Fault
    | OutOfFuel => OutOfFuel
    end.

Notation "'do' x <- m ; k" := (bind m (fun x => k))
  (at level 10, x name, m at level 100, k at level 200).
Notation "m ;; k" := (bind m (fun _ => k))
  (at level 100, k at level 200, right associativity).

Definition out_of_fuel {A} : M A := fun _ => OutOfFuel.
Definition emit (d : diag) : M unit := fun s => Ok tt s [d].

Definition get_head : M (option positive) := fun s => Ok (_head s) s [].
Definition set_head (p : option positive) : M unit :=
  fun s => Ok tt (mk_state (mem s) p) [].

(** [p->next_node] as an rvalue. *)
Definition load_next (p : option positive) : M (option positive) :=
  fun s =>
    match p with
    | None => Fault
    | Some a =>
        match mem s !! a with
        | Some nd => Ok (next_node nd) s []
        | None => Fault
        end
    end.

(** [p->next_node = v]. *)
Definition store_next (p v : option positive) : M unit :=
  fun s =>
    match p with
    | None => Fault
    | Some a =>
        match mem s !! a with
        | Some nd =>
            Ok tt (mk_state (<[a := mk_node (data nd) v]> (mem s)) (_head s)) []
        | None => Fault
        end
    end.

(** ** The handler's member functions *)

(** [handler::next] *)
Definition next (current_pos : option positive) : M (option positive) :=
  match current_pos with
  | None => ret current_pos
  | Some _ => load_next current_pos
  end.

(** The [while (seek_node != nullptr)] loop of [handler::find]. *)
Fixpoint find_loop (fuel : nat) (node seek_node : option positive)
  : M (option positive) :=
  match seek_node with
  | None => ret seek_node
  | Some _ =>
      match fuel with
      | O => out_of_fuel
      | S fuel' =>
          if decide (seek_node = node) then ret seek_node
          else do seek_node' <- next seek_node; find_loop fuel' node seek_node'
      end
  end.

(** [handler::find] *)
Definition find (fuel : nat) (node : option positive) : M (option positive) :=
  do seek_node <- get_head;
  if decide (seek_node = node) then get_head
  else find_loop fuel node seek_node.

(** [handler::clean_next_ptr] *)
Definition clean_next_ptr (node : option positive) : M unit :=
  match node with
  | None => ret tt
  | Some _ => store_next node None
  end.

(** The [while (next(seek_head) != target_node)] loop of
    [handler::find_preceding_node]. *)
Fixpoint find_preceding_loop (fuel : nat) (target_node seek_head : option positive)
  : M (option positive) :=
  do n <- next seek_head;
  if decide (n = target_node) then ret seek_head
  else
    match fuel with
    | O => out_of_fuel
    | S fuel' =>
        do seek_head' <- next seek_head;
        match seek_head' with
        | None => ret seek_head'
        | Some _ => find_preceding_loop fuel' target_node seek_head'
        end
    end.

(** [handler::find_preceding_node] *)
Definition find_preceding_node (fuel : nat) (target_node : option positive)
  : M (option positive) :=
  do seek_head <- get_head;
  match seek_head with
  | None => emit WARN;; ret None
  | Some _ =>
      if decide (seek_head = target_node) then ret seek_head
      else find_preceding_loop fuel target_node seek_head
  end.

(** [handler::head] *)
Definition head : M (option positive) := get_head.

(** [handler::tail] *)
Definition tail (fuel : nat) : M (option positive) :=
  find_preceding_node fuel None.

(** [handler::append] *)
Definition append (fuel : nat) (new_node : option positive) : M unit :=
  do h <- get_head;
  match h with
  | None => set_head new_node
  | Some _ =>
      do p <- tail fuel;
      store_next p new_node
  end.

(** [handler::remove]; the result is the C++ [bool]: [false] is 0 (removed),
    [true] is 1 (not found). *)
Definition remove (fuel : nat) (node : option positive) : M bool :=
  do h <- get_head;
  if decide (node = h) then
    do n <- next node;
    set_head n;;
    clean_next_ptr node;;
    ret false
  else
    do preceding_node <- find_preceding_node fuel node;
    match preceding_node with
    | None => emit (ERROR node);; ret true
    | Some _ =>
        do pn <- load_next preceding_node;
        do nn <- next pn;
        store_next preceding_node nn;;
        clean_next_ptr node;;
        emit (INFO node);;
        ret false
    end.

(** The handler as constructed: [_head = nullptr], over any memory. *)
Definition empty_handler (m : gmap positive node) : state := mk_state m None.

(** [append] called on each node of [ns] in turn. *)
Fixpoint append_all (fuel : nat) (ns : list positive) : M unit :=
  match ns with
  | [] => ret tt
  | n :: ns' => append fuel (Some n);; append_all fuel ns'
  end.

(** ** The chain invariant *)

(** [lseg m p l q]: following [next_node] from [p] visits exactly the
    addresses of [l], in order, and arrives at [q]. *)
Fixpoint lseg (m : gmap positive node) (p : option positive)
  (l : list positive) (q : option positive) : Prop :=
  match l with
  | [] => p = q
  | a :: l' => p = Some a /\ exists nd, m !! a = Some nd /\ lseg m (next_node nd) l' q
  end.

(** The nodes of the list are [l]: the walk from [_head] ends at a node
    whose [next_node] is [nullptr]. *)
Definition chain (m : gmap positive node) (p : option positive)
  (l : list positive) : Prop := lseg m p l None.

(** The chain invariant, with the list's nodes named: every node is reached
    exactly once. *)
Definition chain_inv (s : state) (l : list positive) : Prop :=
  chain (mem s) (_head s) l /\ NoDup l.

(** [q] is reached from [p] by following [next_node] zero or more times. *)
Inductive reachable (m : gmap positive node) : option positive -> option positive -> Prop :=
| reach_here p : reachable m p p
| reach_next a nd q :
    m !! a = Some nd -> reachable m (next_node nd) q -> reachable m (Some a) q.

(** A node the caller may append: it exists and its [next_node] is
    [nullptr]. *)
Definition fresh (m : gmap positive node) (n : positive) : Prop :=
  exists nd, m !! n = Some nd /\ next_node nd = None.

(** A call that returns. *)
Definition returns {A} (o : outcome A) : Prop :=
  exists a s log, o = Ok a s log.

(** What [find] computes on a chain with nodes [l]. *)
Definition find_result (node : option positive) (l : list positive) : option positive :=
  match node with
  | None => None
  | Some a => if decide (a ∈ l) then Some a else None
  end.

(** What the loop of [find_preceding_node] computes when it starts at node
    [a] and the nodes after [a] are [l]. *)
Fixpoint preceding_result (a : positive) (l : list positive)
  (target_node : option positive) : option positive :=
  match l with
  | [] => if decide (None = target_node) then Some a else None
  | b :: l' =>
      if decide (Some b = target_node) then Some a
      else preceding_result b l' target_node
  end.

(** The chain after [n] is taken out. *)
Fixpoint without (n : positive) (l : list positive) : list positive :=
  match l with
  | [] => []
  | a :: l' => if decide (a = n) then l' else a :: without n l'
  end.

(** What [find_preceding_node] returns on a chain with nodes [l]. *)
Definition preceding_node_result (l : list positive) (target_node : option positive)
  : option positive :=
  match l with
  | [] => None
  | a :: l' =>
      if decide (Some a = target_node) then Some a
      else preceding_result a l' target_node
  end.

(** ** A list to run the operations on *)

(** Nodes 1, 2, 3 linked in that order, node 4 and node 5 not linked. *)
Definition demo_mem : gmap positive node :=
  list_to_map
    [(1%positive, mk_node 10 (Some 2%positive));
     (2%positive, mk_node 20 (Some 3%positive));
     (3%positive, mk_node 30 None);
     (4%positive, mk_node 40 None);
     (5%positive, mk_node 50 None)].

Definition demo : state := mk_state demo_mem (Some 1%positive).

(** One free node, and the handler obtained by appending it twice: the
    node's [next_node] points at the node itself. *)
Definition one_mem : gmap positive node := {[ 1%positive := mk_node 10 None ]}.

Definition cyclic : state :=
  mk_state {[ 1%positive := mk_node 10 (Some 1%positive) ]} (Some 1%positive).

(** Two separate chains in one memory: 1, 2 under the handler, and 4, 5
    hanging off node 4. *)
Definition two_lists_mem : gmap positive node :=
  list_to_map
    [(1%positive, mk_node 10 (Some 2%positive));
     (2%positive, mk_node 20 None);
     (4%positive, mk_node 40 (Some 5%positive));
     (5%positive, mk_node 50 None)].

Definition two_lists : state := mk_state two_lists_mem (Some 1%positive).

(** [node::node(T *_data = nullptr, node *_next_node = nullptr)]: the two
    fields are initialised from the arguments. *)
Definition node_ctor (_data : N) (_next_node : option positive) : node :=
  mk_node _data _next_node.

(** The caller constructs a node object in storage at address [a]. *)
Definition construct (a : positive) (nd : node) : M unit :=
  fun s => Ok tt (mk_state (<[a := nd]> (mem s)) (_head s)) [].

(** [remove] called on each node of [ns] in turn; the result tells whether
    some call returned 1. *)
Fixpoint remove_all (fuel : nat) (ns : list positive) : M bool :=
  match ns with
  | [] => ret false
  | n :: ns' =>
      do r <- remove fuel (Some n);
      do r' <- remove_all fuel ns';
      ret (r || r')
  end.


(** ** Computation lemmas *)

Lemma bind_Ok {A B} (m : M A) (f : A -> M B) s a s1 l1 b s2 l2 :
  m s = Ok a s1 l1 -> f a s1 = Ok b s2 l2 -> bind m f s = Ok b s2 (l1 ++ l2).
Proof. intros H1 H2. unfold bind. by rewrite H1, H2. Qed.

Lemma bind_pure {A B} (m : M A) (f : A -> M B) s a :
  m s = Ok a s [] -> bind m f s = f a s.
Proof. intros H1. unfold bind. rewrite H1. by destruct (f a s). Qed.

Lemma bind_inv {A B} (m : M A) (f : A -> M B) s b s2 log :
  bind m f s = Ok b s2 log ->
  exists a s1 l1 l2, m s = Ok a s1 l1 /\ f a s1 = Ok b s2 l2 /\ log = l1 ++ l2.
Proof.
  unfold bind. destruct (m s) as [a s1 l1| |]; [|done..].
  destruct (f a s1) as [b' s2' l2| |] eqn:E; [|done..].
  intros [= -> -> <-]. by exists a, s1, l1, l2.
Qed.

Lemma next_None s : next None s = Ok None s [].
Proof. done. Qed.

Lemma next_Some s a nd :
  mem s !! a = Some nd -> next (Some a) s = Ok (next_node nd) s [].
Proof. intros H. cbn. by rewrite H. Qed.

(** ** Segments and chains *)

Lemma lseg_app m p l1 l2 q :
  lseg m p (l1 ++ l2) q <-> exists r, lseg m p l1 r /\ lseg m r l2 q.
Proof.
  revert p. induction l1 as [|a l1 IH]; intros p; cbn.
  - split; [eauto|]. by intros (r & -> & H).
  - split.
    + intros (-> & nd & Hnd & H). apply IH in H as (r & H1 & H2). eauto 8.
    + intros (r & (-> & nd & Hnd & H1) & H2). split; [done|].
      exists nd. split; [done|]. apply IH. eauto.
Qed.

Lemma lseg_func m p l1 l2 :
  chain m p l1 -> chain m p l2 -> l1 = l2.
Proof.
  unfold chain. revert p l2. induction l1 as [|a l1 IH]; intros p [|b l2]; cbn.
  - done.
  - intros -> [? _]. done.
  - intros [-> _] ?. done.
  - intros (-> & nd & Hnd & H1) ([= <-] & nd' & Hnd' & H2).
    rewrite Hnd in Hnd'. injection Hnd' as <-. f_equal. eauto.
Qed.

(** A store outside the segment does not disturb it. *)
Lemma lseg_insert m p l q a nd :
  a ∉ l -> lseg m p l q -> lseg (<[a := nd]> m) p l q.
Proof.
  revert p. induction l as [|b l IH]; intros p Ha; cbn; [done|].
  intros (-> & nd' & Hnd' & H). split; [done|].
  apply not_elem_of_cons in Ha as [Hab Ha].
  exists nd'. split; [by rewrite lookup_insert_ne|]. by apply IH.
Qed.

Lemma lseg_allocated m p l q a :
  lseg m p l q -> a ∈ l -> is_Some (m !! a).
Proof.
  revert p. induction l as [|b l IH]; intros p; cbn.
  - intros _ H. by apply elem_of_nil in H.
  - intros (-> & nd & Hnd & H) [->|Hin]%elem_of_cons; eauto.
Qed.

(** The chain is a simple path: a chain's nodes are pairwise distinct. *)
Lemma chain_NoDup m p l : chain m p l -> NoDup l.
Proof.
  revert p. induction l as [|a l IH]; intros p; [constructor|].
  intros Hc. pose proof Hc as (-> & nd & Hnd & H). constructor; [|by eapply IH].
  intros Hin. apply list_elem_of_split in Hin as (l1 & l2 & ->).
  pose proof H as H'. apply lseg_app in H' as (r & H1 & H2).
  pose proof H2 as (-> & _).
  assert (a :: l1 ++ a :: l2 = a :: l2) as Heq by (eapply lseg_func; eauto).
  apply (f_equal length) in Heq. cbn in Heq. rewrite length_app in Heq.
  cbn in Heq. lia.
Qed.

Lemma chain_head m p a l : chain m p (a :: l) -> p = Some a.
Proof. by intros [-> _]. Qed.

Lemma chain_nil m p : chain m p [] -> p = None.
Proof. done. Qed.

Lemma reachable_chain m p l q :
  chain m p l -> reachable m p q <-> q = None \/ exists a, q = Some a /\ a ∈ l.
Proof.
  revert p. induction l as [|a l IH]; intros p Hc.
  - apply chain_nil in Hc as ->. split.
    + inversion 1. by left.
    + intros [->|(a & _ & H)]; [constructor|]. by apply elem_of_nil in H.
  - destruct Hc as (-> & nd & Hnd & Hc). split.
    + inversion 1 as [|a' nd' q' Hnd' Hr]; subst.
      * right. exists a. split; [done|]. by left.
      * rewrite Hnd in Hnd'. injection Hnd' as <-.
        apply (IH _ Hc) in Hr as [->|(b & -> & Hb)]; [by left|].
        right. exists b. split; [done|]. by right.
    + intros [->|(b & -> & [->|Hb]%elem_of_cons)].
      * econstructor; [done|]. apply (IH _ Hc). by left.
      * constructor.
      * econstructor; [done|]. apply (IH _ Hc). right. eauto.
Qed.

Lemma chain_hd_error m p l : chain m p l -> p = hd_error l.
Proof. destruct l; [done|]. by intros [-> _]. Qed.

(** Inside a chain, each node's [next_node] is the node that follows it. *)
Lemma chain_split m p l1 x l2 :
  chain m p (l1 ++ x :: l2) ->
  exists nd, m !! x = Some nd /\ next_node nd = hd_error l2 /\
             lseg m p l1 (Some x) /\ chain m (hd_error l2) l2.
Proof.
  intros H. apply lseg_app in H as (r & H1 & -> & nd & Hnd & H2).
  pose proof (chain_hd_error _ _ _ H2) as Hn.
  exists nd. rewrite <- Hn. done.
Qed.

(** ** The traversal loops on a chain *)

Lemma find_result_nil node : find_result node [] = None.
Proof.
  destruct node as [a|]; [|done]. cbn. case_decide as H; [|done].
  by apply elem_of_nil in H.
Qed.

Lemma find_result_cons_ne node a l :
  Some a <> node -> find_result node (a :: l) = find_result node l.
Proof.
  destruct node as [b|]; [|done]. intros Hne. cbn.
  repeat case_decide; try done.
  - match goal with H : b ∈ a :: l |- _ => apply elem_of_cons in H as [->|?] end; done.
  - match goal with H : ¬ b ∈ a :: l |- _ => destruct H; by right end.
Qed.

Lemma find_loop_chain fuel node s p l :
  chain (mem s) p l -> length l <= fuel ->
  find_loop fuel node p s = Ok (find_result node l) s [].
Proof.
  revert p fuel. induction l as [|a l IH]; intros p fuel Hc Hfuel.
  - apply chain_nil in Hc as ->. rewrite find_result_nil. by destruct fuel.
  - destruct Hc as (-> & nd & Hnd & Hc).
    destruct fuel as [|fuel]; [cbn in Hfuel; lia|]. cbn in Hfuel.
    cbn [find_loop]. case_decide as Hd.
    + subst node. cbn. rewrite decide_True; [done|by left].
    + rewrite (bind_pure _ _ _ _ (next_Some _ _ _ Hnd)).
      rewrite find_result_cons_ne by done. apply IH; [done|lia].
Qed.

Lemma find_chain fuel node s l :
  chain (mem s) (_head s) l -> length l <= fuel ->
  find fuel node s = Ok (find_result node l) s [].
Proof.
  intros Hc Hfuel. unfold find.
  rewrite (bind_pure _ _ s (_head s)) by done.
  case_decide as Hd; [|by apply find_loop_chain].
  unfold get_head. rewrite Hd. f_equal.
  destruct node as [a|]; [|done].
  destruct l as [|b l]; [apply chain_nil in Hc; congruence|].
  apply chain_head in Hc. assert (b = a) as -> by congruence.
  cbn. rewrite decide_True; [done|by left].
Qed.

Lemma find_preceding_loop_chain fuel target s a l :
  chain (mem s) (Some a) (a :: l) -> length (a :: l) <= fuel ->
  find_preceding_loop fuel target (Some a) s = Ok (preceding_result a l target) s [].
Proof.
  revert a fuel. induction l as [|b l IH]; intros a fuel Hc Hfuel;
    destruct Hc as (_ & nd & Hnd & Hc);
    (destruct fuel as [|fuel]; [cbn in Hfuel; lia|]); cbn [find_preceding_loop];
    rewrite (bind_pure _ _ _ _ (next_Some _ _ _ Hnd)).
  - apply chain_nil in Hc. rewrite Hc. cbn [preceding_result].
    repeat case_decide; try done.
    rewrite (bind_pure _ _ _ _ (next_Some _ _ _ Hnd)). by rewrite Hc.
  - pose proof (chain_head _ _ _ _ Hc) as Hn. rewrite Hn. cbn [preceding_result].
    repeat case_decide; try done.
    rewrite (bind_pure _ _ _ _ (next_Some _ _ _ Hnd)). rewrite Hn.
    apply IH; [by rewrite <- Hn|cbn in *; lia].
Qed.

Lemma find_preceding_node_chain fuel target s l :
  chain (mem s) (_head s) l -> length l <= fuel ->
  find_preceding_node fuel target s =
    Ok (preceding_node_result l target) s (if l is [] then [WARN] else []).
Proof.
  intros Hc Hfuel. unfold find_preceding_node.
  rewrite (bind_pure _ _ s (_head s)) by done.
  destruct l as [|a l].
  - apply chain_nil in Hc. by rewrite Hc.
  - pose proof (chain_head _ _ _ _ Hc) as Hh. rewrite Hh. cbn [preceding_node_result].
    repeat case_decide; try done. apply find_preceding_loop_chain; [by rewrite <- Hh|done].
Qed.

(** The result of the predecessor search, read on the list of nodes. *)
Lemma preceding_result_Some a l t p :
  preceding_result a l t = Some p ->
  exists l1 l2, a :: l = l1 ++ p :: l2 /\ t = hd_error l2.
Proof.
  revert a. induction l as [|b l IH]; intros a; cbn.
  - case_decide as Hd; [|done]. intros [= <-]. by exists [], [].
  - case_decide as Hd.
    + intros [= <-]. by exists [], (b :: l).
    + intros (l1 & l2 & Heq & Ht)%IH. exists (a :: l1), l2. by rewrite Heq.
Qed.

Lemma preceding_result_None a l t :
  preceding_result a l t = None <-> exists b, t = Some b /\ b ∉ l.
Proof.
  revert a. induction l as [|b l IH]; intros a; cbn.
  - case_decide as Hd.
    + split; [done|]. intros (c & -> & _). done.
    + split; [|done]. intros _. destruct t as [c|]; [|done].
      exists c. split; [done|]. apply not_elem_of_nil.
  - case_decide as Hd.
    + split; [done|]. intros (c & -> & Hc). destruct Hc. injection Hd as ->. by left.
    + rewrite IH. split; intros (c & -> & Hc); exists c; (split; [done|]).
      * apply not_elem_of_cons. split; [congruence|done].
      * by apply not_elem_of_cons in Hc as [_ ?].
Qed.

Lemma preceding_result_last a l : preceding_result a l None = last (a :: l).
Proof.
  revert a. induction l as [|b l IH]; intros a; [done|].
  cbn [preceding_result]. case_decide; [done|]. by rewrite IH.
Qed.

Lemma tail_chain fuel s l :
  chain (mem s) (_head s) l -> length l <= fuel ->
  tail fuel s = Ok (last l) s (if l is [] then [WARN] else []).
Proof.
  intros Hc Hfuel. unfold tail. rewrite (find_preceding_node_chain _ _ _ l) by done.
  destruct l as [|a l]; [done|]. cbn [preceding_node_result].
  case_decide; [done|]. by rewrite preceding_result_last.
Qed.

(** ** [append] on a chain *)

Lemma store_next_Some s a nd v :
  mem s !! a = Some nd ->
  store_next (Some a) v s =
    Ok tt (mk_state (<[a := mk_node (data nd) v]> (mem s)) (_head s)) [].
Proof. intros H. cbn. by rewrite H. Qed.

Lemma append_empty fuel n s :
  _head s = None -> append fuel n s = Ok tt (mk_state (mem s) n) [].
Proof. intros H. unfold append, bind, get_head. by rewrite H. Qed.

Lemma append_nonempty fuel n s l t nd :
  chain (mem s) (_head s) l -> length l <= fuel ->
  last l = Some t -> mem s !! t = Some nd ->
  append fuel n s =
    Ok tt (mk_state (<[t := mk_node (data nd) n]> (mem s)) (_head s)) [].
Proof.
  intros Hc Hfuel Hlast Hnd.
  destruct l as [|a l]; [done|].
  transitivity ((do p <- tail fuel; store_next p n) s).
  { unfold append. rewrite (bind_pure _ _ s (_head s)) by done.
    by rewrite (chain_head _ _ _ _ Hc). }
  erewrite bind_pure; [by apply store_next_Some|].
  rewrite (tail_chain _ _ (a :: l)) by done. by rewrite Hlast.
Qed.

Lemma last_cases {A} (l : list A) : l = [] \/ exists l' t, l = l' ++ [t].
Proof. destruct l as [|t l' _] using rev_ind; eauto. Qed.

(** Appending a fresh node that is not in the list puts it at the end of
    the chain and touches no node outside the list. *)
Lemma append_fresh fuel s l n :
  chain_inv s l -> length l <= fuel -> fresh (mem s) n -> n ∉ l ->
  exists s', append fuel (Some n) s = Ok tt s' [] /\
             chain_inv s' (l ++ [n]) /\
             (forall b, b ∉ l -> mem s' !! b = mem s !! b) /\
             (forall b nd, mem s !! b = Some nd ->
                exists nd', mem s' !! b = Some nd' /\ data nd' = data nd).
Proof.
  intros [Hc Hnd] Hfuel (ndn & Hn & Hnext) Hnl.
  assert (NoDup (l ++ [n])) as Hnd'.
  { apply NoDup_app. split_and!; [done| |apply NoDup_singleton].
    intros x Hx ->%list_elem_of_singleton. done. }
  destruct (last_cases l) as [->|(l' & t & ->)].
  - apply chain_nil in Hc. eexists. split; [by apply append_empty|].
    split_and!; try done; [|by eauto].
    split; [|done]. cbn. split; [done|]. eauto.
  - pose proof (chain_split _ _ _ _ _ Hc) as (ndt & Ht & Htn & Hseg & _).
    eexists. split.
    { eapply append_nonempty; [done..| |done]. by rewrite last_snoc. }
    apply NoDup_app in Hnd as (_ & Hdisj & _).
    assert (t ∉ l') as Htl by (intros ?; eapply Hdisj; [done|by left]).
    assert (n <> t) as Hnt by (intros ->; apply Hnl, elem_of_app; right; by left).
    cbn [mem _head]. split_and!.
    + split; [|done]. cbn [mem _head]. rewrite <- app_assoc. apply lseg_app.
      exists (Some t). split; [by apply lseg_insert|].
      cbn. split; [done|]. eexists. split; [by rewrite lookup_insert_eq|].
      cbn. split; [done|]. exists ndn. by rewrite lookup_insert_ne.
    + intros b Hb. rewrite lookup_insert_ne; [done|].
      intros ->. apply Hb, elem_of_app. right. by left.
    + intros b nd Hbnd. destruct (decide (t = b)) as [->|Hne].
      * rewrite lookup_insert_eq. eexists. split; [done|]. cbn. congruence.
      * rewrite lookup_insert_ne by done. eauto.
Qed.

(** ** [remove] on a chain *)

Lemma state_eta s : mk_state (mem s) (_head s) = s.
Proof. by destruct s. Qed.

Lemma node_eta nd : mk_node (data nd) (next_node nd) = nd.
Proof. by destruct nd. Qed.

(** [remove(nullptr)] on an empty handler takes the branch [node == _head]. *)
Lemma remove_null_empty fuel s :
  _head s = None -> remove fuel None s = Ok false s [].
Proof.
  destruct s as [m h]. cbn. by intros ->.
Qed.

Lemma remove_not_found fuel s l node :
  chain (mem s) (_head s) l -> length l <= fuel ->
  node <> _head s -> preceding_node_result l node = None ->
  remove fuel node s =
    Ok true s ((if l is [] then [WARN] else []) ++ [ERROR node]).
Proof.
  intros Hc Hfuel Hne Hres. unfold remove.
  rewrite (bind_pure _ _ s (_head s)) by done.
  rewrite decide_False by done.
  erewrite bind_Ok; [done|by apply find_preceding_node_chain|].
  by rewrite Hres.
Qed.

Lemma remove_head fuel s a l nd :
  chain (mem s) (_head s) (a :: l) -> mem s !! a = Some nd ->
  remove fuel (Some a) s =
    Ok false (mk_state (<[a := mk_node (data nd) None]> (mem s)) (hd_error l)) [].
Proof.
  intros Hc Hnd. pose proof (chain_head _ _ _ _ Hc) as Hh.
  destruct Hc as (_ & nd' & Hnd' & Hc). rewrite Hnd in Hnd'. injection Hnd' as <-.
  apply chain_hd_error in Hc.
  unfold remove. rewrite (bind_pure _ _ s (_head s)) by done.
  rewrite decide_True by done.
  rewrite (bind_pure _ _ _ _ (next_Some _ _ _ Hnd)).
  unfold bind, set_head, clean_next_ptr. cbn. rewrite Hnd. cbn. by rewrite Hc.
Qed.

Lemma preceding_result_mid a l1 p n l2 :
  n ∉ l1 -> n <> p ->
  preceding_result a (l1 ++ p :: n :: l2) (Some n) = Some p.
Proof.
  intros Hn Hp. revert a. induction l1 as [|b l1 IH]; intros a; cbn.
  - rewrite decide_False by congruence. by rewrite decide_True.
  - apply not_elem_of_cons in Hn as [Hb Hn].
    rewrite decide_False by congruence. by apply IH.
Qed.

Lemma preceding_node_result_mid l1 p n l2 :
  n ∉ l1 -> n <> p ->
  preceding_node_result (l1 ++ p :: n :: l2) (Some n) = Some p.
Proof.
  intros Hn Hp. destruct l1 as [|a l1]; cbn.
  - rewrite decide_False by congruence. by rewrite decide_True.
  - apply not_elem_of_cons in Hn as [Hb Hn].
    rewrite decide_False by congruence. by apply preceding_result_mid.
Qed.

Lemma remove_inner fuel s l1 p n l2 ndp ndn :
  chain_inv s (l1 ++ p :: n :: l2) -> length (l1 ++ p :: n :: l2) <= fuel ->
  mem s !! p = Some ndp -> mem s !! n = Some ndn ->
  remove fuel (Some n) s =
    Ok false
       (mk_state (<[n := mk_node (data ndn) None]>
                    (<[p := mk_node (data ndp) (hd_error l2)]> (mem s)))
                 (_head s))
       [INFO (Some n)].
Proof.
  intros [Hc Hnd] Hfuel Hp Hn.
  apply NoDup_app in Hnd as (_ & Hdisj & Hnd2).
  apply NoDup_cons in Hnd2 as [Hpn _].
  assert (n ∉ l1) as Hnl1 by (intros Hin; eapply Hdisj; [done|]; right; by left).
  assert (n <> p) as Hnp by (intros ->; apply Hpn; by left).
  assert (Some n <> _head s) as Hnh.
  { rewrite (chain_hd_error _ _ _ Hc). destruct l1 as [|a l1]; cbn; [congruence|].
    intros [= ->]. apply Hnl1. by left. }
  pose proof (chain_split _ _ _ _ _ Hc) as (ndp' & Hp' & Hpnext & _ & Hc2).
  rewrite Hp in Hp'. injection Hp' as <-. cbn in Hpnext, Hc2.
  destruct Hc2 as (_ & ndn' & Hn' & Hc3). rewrite Hn in Hn'. injection Hn' as <-.
  apply chain_hd_error in Hc3.
  unfold remove. rewrite (bind_pure _ _ s (_head s)) by done.
  rewrite decide_False by done.
  erewrite bind_pure; cycle 1.
  { rewrite (find_preceding_node_chain _ _ _ _ Hc Hfuel).
    rewrite preceding_node_result_mid by done. by destruct l1. }
  cbn beta iota.
  unfold bind, load_next, clean_next_ptr, emit, ret. rewrite Hp, Hpnext. cbn.
  rewrite Hn, Hp. cbn. rewrite lookup_insert_ne by done. rewrite Hn. cbn.
  by rewrite Hc3.
Qed.

(** [remove(nullptr)] on a non-empty chain: the node found is the tail and
    the splice stores the [nullptr] that is already there. *)
Lemma remove_null_nonempty fuel s l :
  chain_inv s l -> length l <= fuel -> l <> [] ->
  remove fuel None s = Ok false s [INFO None].
Proof.
  intros [Hc Hnd] Hfuel Hl.
  destruct (last_cases l) as [->|(l' & t & ->)]; [done|].
  pose proof (chain_split _ _ _ _ _ Hc) as (ndt & Ht & Htn & _ & _).
  assert (None <> _head s) as Hnh.
  { rewrite (chain_hd_error _ _ _ Hc). by destruct l'. }
  unfold remove. rewrite (bind_pure _ _ s (_head s)) by done.
  rewrite decide_False by done.
  assert (find_preceding_node fuel None s = Ok (Some t) s []) as Hf.
  { pose proof (tail_chain _ _ _ Hc Hfuel) as Htail. rewrite last_snoc in Htail.
    unfold tail in Htail. rewrite Htail. by destruct l'. }
  rewrite (bind_pure _ _ _ _ Hf).
  unfold bind, load_next, clean_next_ptr, emit, ret. cbn. rewrite Ht, Htn. cbn.
  rewrite Ht. cbn. rewrite <- Htn at 1. rewrite node_eta.
  rewrite insert_id by done. by rewrite state_eta.
Qed.

Lemma without_app n k l2 : n ∉ k -> without n (k ++ n :: l2) = k ++ l2.
Proof.
  induction k as [|a k IH]; intros Hn; cbn.
  - by rewrite decide_True.
  - apply not_elem_of_cons in Hn as [Hne Hn].
    rewrite decide_False by congruence. by rewrite IH.
Qed.

Lemma without_absent n l : n ∉ l -> without n l = l.
Proof.
  induction l as [|a l IH]; intros Hn; cbn; [done|].
  apply not_elem_of_cons in Hn as [Hne Hn].
  rewrite decide_False by congruence. by rewrite IH.
Qed.

Lemma NoDup_without n l : NoDup l -> n ∈ l -> NoDup (without n l) /\ n ∉ without n l.
Proof.
  intros Hnd (k1 & k2 & -> & Hn1)%list_elem_of_split_l.
  apply NoDup_app in Hnd as (Hk1 & Hdisj & [Hn2 Hk2]%NoDup_cons).
  rewrite without_app by done. split.
  - apply NoDup_app. split_and!; [done| |done].
    intros x Hx Hx2. eapply Hdisj; [done|by right].
  - rewrite elem_of_app. tauto.
Qed.

Lemma length_without n l : n ∈ l -> S (length (without n l)) = length l.
Proof.
  intros (k1 & k2 & -> & Hn1)%list_elem_of_split_l.
  rewrite without_app by done. rewrite !length_app. cbn. lia.
Qed.

Lemma preceding_node_result_absent l a :
  a ∉ l -> preceding_node_result l (Some a) = None.
Proof.
  destruct l as [|b l]; [done|]. intros [Hne Hn]%not_elem_of_cons. cbn.
  rewrite decide_False by congruence. apply preceding_result_None. eauto.
Qed.

(** Removing a node of the chain: the call succeeds, the chain loses exactly
    that node, the node's [next_node] is cleared, and no [data] field and no
    node outside the list changes. *)
Lemma remove_member fuel s l n :
  chain_inv s l -> length l <= fuel -> n ∈ l ->
  exists nd s',
    mem s !! n = Some nd /\
    remove fuel (Some n) s =
      Ok false s' (if decide (_head s = Some n) then [] else [INFO (Some n)]) /\
    chain_inv s' (without n l) /\
    mem s' !! n = Some (mk_node (data nd) None) /\
    (forall b, b ∉ l -> mem s' !! b = mem s !! b) /\
    (forall b ndb, mem s !! b = Some ndb ->
       exists ndb', mem s' !! b = Some ndb' /\ data ndb' = data ndb).
Proof.
  intros Hinv Hfuel Hin. pose proof Hinv as [Hc Hnd].
  destruct (NoDup_without n l Hnd Hin) as [Hnd' _].
  apply list_elem_of_split_l in Hin as (k1 & k2 & -> & Hnk1).
  rewrite without_app in * by done.
  pose proof (chain_split _ _ _ _ _ Hc) as (ndn & Hn & Hnn & Hseg & Hc2).
  assert (n ∉ k2) as Hnk2.
  { apply NoDup_app in Hnd as (_ & _ & [? _]%NoDup_cons). done. }
  exists ndn. destruct (last_cases k1) as [->|(l1 & p & ->)].
  - cbn [app] in *. eexists. split; [done|]. split.
    { rewrite decide_True by (by eapply chain_head). by eapply remove_head. }
    cbn [mem _head]. split_and!.
    + split; [|done]. by apply lseg_insert.
    + by rewrite lookup_insert_eq.
    + intros b [Hb _]%not_elem_of_cons. by rewrite lookup_insert_ne.
    + intros b ndb Hb. destruct (decide (n = b)) as [->|Hne].
      * rewrite lookup_insert_eq. eexists. split; [done|]. cbn. congruence.
      * rewrite lookup_insert_ne by done. eauto.
  - rewrite <- app_assoc in *. cbn [app] in *.
    pose proof (chain_split _ _ _ _ _ Hc) as (ndp & Hp & _ & Hseg1 & _).
    assert ((p ∉ l1) /\ p <> n /\ (p ∉ k2) /\ (n ∉ l1)) as (Hpl1 & Hpn & Hpk2 & Hnl1).
    { apply NoDup_app in Hnd as (_ & Hdisj & [Hp2 _]%NoDup_cons).
      rewrite !not_elem_of_cons in Hp2. rewrite elem_of_app in Hnk1.
      split_and!; try tauto. intros ?. eapply Hdisj; [done|by left]. }
    eexists. split; [done|]. split.
    { rewrite decide_False; [by eapply remove_inner|].
      rewrite (chain_hd_error _ _ _ Hc). destruct l1 as [|a l1]; cbn; [congruence|].
      intros [= ->]. apply Hnl1. by left. }
    cbn [mem _head]. split_and!.
    + split; [|done]. apply lseg_app. exists (Some p). split.
      * apply lseg_insert; [done|]. by apply lseg_insert.
      * cbn. split; [done|]. eexists. split.
        { rewrite lookup_insert_ne by done. by rewrite lookup_insert_eq. }
        cbn. apply lseg_insert; [done|]. by apply lseg_insert.
    + by rewrite lookup_insert_eq.
    + intros b Hb.
      rewrite !lookup_insert_ne; [done|intros ->; apply Hb; set_solver..].
    + intros b ndb Hb. destruct (decide (n = b)) as [->|Hne].
      { rewrite lookup_insert_eq. eexists. split; [done|]. cbn. congruence. }
      rewrite lookup_insert_ne by done. destruct (decide (p = b)) as [->|Hne'].
      { rewrite lookup_insert_eq. eexists. split; [done|]. cbn. congruence. }
      rewrite lookup_insert_ne by done. eauto.
Qed.

(** ** Sequences of appends *)

Lemma append_all_fresh fuel ns s l :
  chain_inv s l -> NoDup ns ->
  (forall n, n ∈ ns -> fresh (mem s) n /\ n ∉ l) ->
  length (l ++ ns) <= fuel ->
  exists s', append_all fuel ns s = Ok tt s' [] /\ chain_inv s' (l ++ ns).
Proof.
  revert s l. induction ns as [|n ns IH]; intros s l Hinv Hnd Hfresh Hfuel.
  - exists s. by rewrite app_nil_r.
  - apply NoDup_cons in Hnd as [Hn Hnd].
    destruct (Hfresh n) as [Hfn Hnl]; [by left|].
    rewrite length_app in Hfuel. cbn in Hfuel.
    destruct (append_fresh fuel s l n) as (s1 & Happ & Hinv1 & Hframe & _);
      [done|lia|done..|].
    destruct (IH s1 (l ++ [n])) as (s' & Hall & Hinv'); [done..| | |].
    + intros n' Hn'. destruct (Hfresh n') as [Hf' Hl']; [by right|]. split.
      * unfold fresh. by rewrite Hframe.
      * rewrite elem_of_app, list_elem_of_singleton. intros [?| ->]; done.
    + rewrite !length_app. cbn. lia.
    + exists s'. rewrite <- app_assoc in Hinv'. split; [|done].
      cbn [append_all]. by rewrite (bind_Ok _ _ _ _ _ _ _ _ _ Happ Hall).
Qed.

Lemma append_all_empty fuel ns m :
  NoDup ns -> (forall n, n ∈ ns -> fresh m n) -> length ns <= fuel ->
  exists s', append_all fuel ns (empty_handler m) = Ok tt s' [] /\ chain_inv s' ns.
Proof.
  intros Hnd Hfresh Hfuel.
  apply (append_all_fresh fuel ns (empty_handler m) []); try done.
  - split; [done|constructor].
  - intros n Hn. split; [by apply Hfresh|apply not_elem_of_nil].
Qed.

Lemma demo_chain_inv : chain_inv demo [1%positive; 2%positive; 3%positive].
Proof.
  split.
  - repeat (split; [reflexivity|]; eexists; split; [reflexivity|]). reflexivity.
  - apply (bool_decide_unpack _). by vm_compute.
Qed.

Lemma demo_fresh n : n ∈ [4%positive; 5%positive] -> fresh demo_mem n.
Proof.
  intros [->|[->|[]%elem_of_nil]%elem_of_cons]%elem_of_cons;
    eexists; split; reflexivity.
Qed.

Lemma demo_NoDup : NoDup [4%positive; 5%positive].
Proof. apply (bool_decide_unpack _). by vm_compute. Qed.

(** ** Properties of the operations *)

(** C1. On a state satisfying the chain invariant, [remove(n)] returns, it
    returns 1 (failure) exactly when [n] is not reached from [_head] by
    following [next_node] (for a non-null [n]: when [n] is not a node of the
    list; [nullptr] is reached at the end of every chain), and a call that
    returns 1 leaves memory and [_head] as they were. *)
Theorem remove_fails_iff_unreachable s l fuel n :
  chain_inv s l -> length l <= fuel ->
  exists r s' log,
    remove fuel n s = Ok r s' log /\
    (r = true <-> ~ reachable (mem s) (_head s) n) /\
    (forall a, n = Some a -> (r = true <-> a ∉ l)) /\
    (r = true -> s' = s).
Proof.
  intros Hinv Hfuel. pose proof Hinv as [Hc Hnd].
  pose proof (reachable_chain _ _ _ n Hc) as Hreach.
  destruct n as [a|].
  - destruct (decide (a ∈ l)) as [Hin|Hnin].
    + destruct (remove_member fuel s l a) as (nd & s' & _ & Hrem & _); [done..|].
      eexists _, _, _. split; [done|]. split_and!; [| |done].
      * split; [done|]. intros Hnr. destruct Hnr. apply Hreach. eauto.
      * intros ? [= <-]. done.
    + eexists _, _, _. split.
      { eapply remove_not_found; [done..| |by apply preceding_node_result_absent].
        rewrite (chain_hd_error _ _ _ Hc). destruct l as [|b l]; [done|].
        cbn. intros [= ->]. apply Hnin. by left. }
      split_and!; [| |done].
      * split; [|done]. intros _ [?|(b & [= <-] & ?)]%Hreach; done.
      * intros ? [= <-]. done.
  - assert (reachable (mem s) (_head s) None) as Hr by (apply Hreach; by left).
    destruct l as [|b l].
    + apply chain_nil in Hc. eexists _, _, _.
      split; [by apply remove_null_empty|]. split_and!; done.
    + eexists _, _, _. split; [by eapply remove_null_nonempty|].
      split_and!; done.
Qed.

Lemma remove_fails_iff_unreachable_witness :
  exists r s' log,
    remove 3 (Some 4%positive) demo = Ok r s' log /\
    (r = true <-> ~ reachable (mem demo) (_head demo) (Some 4%positive)) /\
    (forall a, Some 4%positive = Some a -> (r = true <-> a ∉ [1; 2; 3]%positive)) /\
    (r = true -> s' = demo).
Proof.
  apply (remove_fails_iff_unreachable demo [1; 2; 3]%positive 3 (Some 4%positive)).
  - exact demo_chain_inv.
  - simpl. lia.
Defined.

(** C2. The chain invariant holds of the empty handler, an [append] of a
    fresh node that is not in the list returns and re-establishes it (the
    node is added at the end), and every [remove] returns and re-establishes
    it (the chain loses the removed node, if it had it). *)
Theorem chain_invariant_preserved :
  (forall m, chain_inv (empty_handler m) []) /\
  (forall s l fuel n,
     chain_inv s l -> length l <= fuel -> fresh (mem s) n -> n ∉ l ->
     exists s', append fuel (Some n) s = Ok tt s' [] /\ chain_inv s' (l ++ [n])) /\
  (forall s l fuel n,
     chain_inv s l -> length l <= fuel ->
     exists r s' log,
       remove fuel n s = Ok r s' log /\
       chain_inv s' (if n is Some a then without a l else l)).
Proof.
  split_and!.
  - intros m. split; [done|constructor].
  - intros s l fuel n Hinv Hfuel Hfresh Hn.
    destruct (append_fresh fuel s l n) as (s' & ? & ? & _); eauto.
  - intros s l fuel n Hinv Hfuel. pose proof Hinv as [Hc Hnd].
    destruct n as [a|].
    + destruct (decide (a ∈ l)) as [Hin|Hnin].
      * destruct (remove_member fuel s l a) as (nd & s' & _ & Hrem & ? & _); [done..|].
        eauto.
      * eexists _, _, _. split.
        { eapply remove_not_found; [done..| |by apply preceding_node_result_absent].
          rewrite (chain_hd_error _ _ _ Hc). destruct l as [|b l]; [done|].
          cbn. intros [= ->]. apply Hnin. by left. }
        by rewrite without_absent.
    + destruct l as [|b l].
      * apply chain_nil in Hc. eexists _, _, _.
        split; [by apply remove_null_empty|done].
      * eexists _, _, _. split; [by eapply remove_null_nonempty|done].
Qed.

Lemma chain_invariant_preserved_witness :
  chain_inv (empty_handler demo_mem) [] /\
  (exists s', append 3 (Some 4%positive) demo = Ok tt s' [] /\
              chain_inv s' [1; 2; 3; 4]%positive) /\
  (exists r s' log, remove 3 (Some 2%positive) demo = Ok r s' log /\
                    chain_inv s' [1; 3]%positive).
Proof.
  destruct chain_invariant_preserved as (Hempty & Happ & Hrem). split_and!.
  - apply Hempty.
  - apply (Happ demo [1; 2; 3]%positive 3 4%positive).
    + exact demo_chain_inv.
    + simpl. lia.
    + apply demo_fresh. by left.
    + apply (bool_decide_unpack _). by vm_compute.
  - apply (Hrem demo [1; 2; 3]%positive 3 (Some 2%positive)).
    + exact demo_chain_inv.
    + simpl. lia.
Defined.






(** C4. After appending distinct fresh nodes to an empty handler, [head()]
    is the first appended node and [tail()] the last one; on an empty
    handler both are [nullptr]. *)
Theorem head_tail_after_appends :
  (forall m ns fuel,
     NoDup ns -> (forall n, n ∈ ns -> fresh m n) -> length ns <= fuel ->
     exists s',
       append_all fuel ns (empty_handler m) = Ok tt s' [] /\
       head s' = Ok (hd_error ns) s' [] /\
       exists log, tail fuel s' = Ok (last ns) s' log) /\
  (forall m fuel,
     head (empty_handler m) = Ok None (empty_handler m) [] /\
     exists log, tail fuel (empty_handler m) = Ok None (empty_handler m) log).
Proof.
  split.
  - intros m ns fuel Hnd Hfresh Hfuel.
    destruct (append_all_empty fuel ns m) as (s' & Hall & [Hc _]); [done..|].
    exists s'. split; [done|]. split.
    + unfold head, get_head. by rewrite (chain_hd_error _ _ _ Hc).
    + eexists. by apply tail_chain.
  - intros m fuel. split; [done|]. by eexists.
Qed.

Lemma head_tail_after_appends_witness :
  exists s',
    append_all 2 [4; 5]%positive (empty_handler demo_mem) = Ok tt s' [] /\
    head s' = Ok (Some 4%positive) s' [] /\
    exists log, tail 2 s' = Ok (Some 5%positive) s' log.
Proof.
  apply (proj1 head_tail_after_appends demo_mem [4; 5]%positive 2).
  - exact demo_NoDup.
  - exact demo_fresh.
  - simpl. lia.
Defined.

Lemma NoDup_split_unique (l1 l2 k1 k2 : list positive) x :
  NoDup (l1 ++ x :: l2) -> l1 ++ x :: l2 = k1 ++ x :: k2 -> l1 = k1 /\ l2 = k2.
Proof.
  revert k1. induction l1 as [|a l1 IH]; intros [|b k1] Hnd Heq; cbn in *.
  - by injection Heq.
  - injection Heq as <- ->. apply NoDup_cons in Hnd as [Hx _].
    destruct Hx. apply elem_of_app. right. by left.
  - injection Heq as -> <-. apply NoDup_cons in Hnd as [Hx _].
    destruct Hx. apply elem_of_app. right. by left.
  - injection Heq as <- Heq. apply NoDup_cons in Hnd as [_ Hnd].
    destruct (IH _ Hnd Heq) as [-> ->]. done.
Qed.

(** In a chain, two nodes with the same [next_node] are the same node. *)
Lemma chain_next_inj m p l q1 q2 nd1 nd2 :
  chain m p l -> NoDup l -> q1 ∈ l -> q2 ∈ l ->
  m !! q1 = Some nd1 -> m !! q2 = Some nd2 ->
  next_node nd1 = next_node nd2 -> q1 = q2.
Proof.
  intros Hc Hnd (l1 & l2 & ->)%list_elem_of_split (k1 & k2 & Heq)%list_elem_of_split
    H1 H2 Hnext.
  pose proof (chain_split _ _ _ _ _ Hc) as (nd1' & H1' & Hn1 & _).
  rewrite Heq in Hc.
  pose proof (chain_split _ _ _ _ _ Hc) as (nd2' & H2' & Hn2 & _).
  assert (nd1' = nd1) as -> by congruence. assert (nd2' = nd2) as -> by congruence.
  rewrite Hn1, Hn2 in Hnext.
  destruct l2 as [|t l2], k2 as [|t' k2]; cbn in Hnext; try done.
  - by apply app_inj_tail in Heq as [_ ?].
  - injection Hnext as <-.
    assert ((l1 ++ [q1]) ++ t :: l2 = (k1 ++ [q2]) ++ t :: k2) as Heq'
      by (by rewrite <- !app_assoc).
    assert (NoDup ((l1 ++ [q1]) ++ t :: l2)) as Hnd' by (by rewrite <- app_assoc).
    apply NoDup_split_unique in Heq' as [Heq' _]; [|done].
    by apply app_inj_tail in Heq' as [_ ?].
Qed.

(** C5. On a state satisfying the chain invariant, [find_preceding_node]
    returns [nullptr] on an empty list, [_head] when the target is [_head],
    [nullptr] when the target is not reached from [_head], and otherwise the
    one node of the list whose [next_node] is the target. *)
Theorem find_preceding_node_cases s l fuel target :
  chain_inv s l -> length l <= fuel ->
  exists r log,
    find_preceding_node fuel target s = Ok r s log /\
    (_head s = None -> r = None) /\
    (target = _head s -> r = _head s) /\
    (~ reachable (mem s) (_head s) target -> r = None) /\
    (_head s <> None -> target <> _head s -> reachable (mem s) (_head s) target ->
     exists p nd,
       r = Some p /\ p ∈ l /\ mem s !! p = Some nd /\ next_node nd = target /\
       forall q ndq,
         q ∈ l -> mem s !! q = Some ndq -> next_node ndq = target -> q = p).
Proof.
  intros [Hc Hnd] Hfuel. eexists _, _.
  split; [by apply find_preceding_node_chain|].
  pose proof (chain_hd_error _ _ _ Hc) as Hh.
  pose proof (reachable_chain _ _ _ target Hc) as Hreach.
  destruct l as [|a l]; cbn in Hh; rewrite Hh in Hreach |- *.
  { split_and!; done. }
  cbn [preceding_node_result]. split_and!.
  - done.
  - intros ->. by rewrite decide_True.
  - intros Hnr. destruct target as [t|]; [|destruct Hnr; apply Hreach; by left].
    assert (t ∉ a :: l) as [Hta Htl]%not_elem_of_cons.
    { intros Hin. apply Hnr, Hreach. eauto. }
    rewrite decide_False by congruence. apply preceding_result_None. eauto.
  - intros _ Hne Hr. rewrite decide_False by done.
    destruct (preceding_result a l target) as [p|] eqn:Hres; cycle 1.
    { apply preceding_result_None in Hres as (b & -> & Hb).
      apply Hreach in Hr as [?|(b' & [= <-] & [->|?]%elem_of_cons)]; done. }
    apply preceding_result_Some in Hres as (l1 & l2 & Heq & ->).
    assert (p ∈ a :: l) as Hp.
    { rewrite Heq. apply elem_of_app. right. by left. }
    rewrite Heq in Hc.
    pose proof (chain_split _ _ _ _ _ Hc) as (nd & Hpnd & Hnext & _).
    rewrite <- Heq in Hc.
    exists p, nd. split_and!; try done.
    intros q ndq Hq Hqnd Hqnext. eapply chain_next_inj; eauto. congruence.
Qed.

Lemma find_preceding_node_cases_witness :
  exists r log,
    find_preceding_node 3 (Some 3%positive) demo = Ok r demo log /\
    (_head demo = None -> r = None) /\
    (Some 3%positive = _head demo -> r = _head demo) /\
    (~ reachable (mem demo) (_head demo) (Some 3%positive) -> r = None) /\
    (_head demo <> None -> Some 3%positive <> _head demo ->
     reachable (mem demo) (_head demo) (Some 3%positive) ->
     exists p nd,
       r = Some p /\ p ∈ [1; 2; 3]%positive /\ mem demo !! p = Some nd /\
       next_node nd = Some 3%positive /\
       forall q ndq,
         q ∈ [1; 2; 3]%positive -> mem demo !! q = Some ndq ->
         next_node ndq = Some 3%positive -> q = p).
Proof.
  apply (find_preceding_node_cases demo [1; 2; 3]%positive 3 (Some 3%positive)).
  - exact demo_chain_inv.
  - simpl. lia.
Defined.

(** C6. Removing a node of the list succeeds, leaves the node with
    [next_node == nullptr] and its [data] as it was; appending the node
    again returns, and the node is then the last node (the tail) of a chain
    that satisfies the invariant and ends at it. *)
Theorem remove_then_append_relinks s l fuel n :
  chain_inv s l -> length l <= fuel -> n ∈ l ->
  exists nd s1 log s2 nd2,
    mem s !! n = Some nd /\
    remove fuel (Some n) s = Ok false s1 log /\
    mem s1 !! n = Some (mk_node (data nd) None) /\
    append fuel (Some n) s1 = Ok tt s2 [] /\
    chain_inv s2 (without n l ++ [n]) /\
    tail fuel s2 = Ok (Some n) s2 [] /\
    mem s2 !! n = Some nd2 /\ next_node nd2 = None /\ data nd2 = data nd.
Proof.
  intros Hinv Hfuel Hin. pose proof Hinv as [Hc Hnd].
  destruct (remove_member fuel s l n) as (nd & s1 & Hn & Hrem & Hinv1 & Hn1 & _);
    [done..|].
  destruct (NoDup_without n l Hnd Hin) as [_ Hnw].
  pose proof (length_without n l Hin) as Hlen.
  destruct (append_fresh fuel s1 (without n l) n)
    as (s2 & Happ & Hinv2 & _ & Hdata); [done|lia| |done|].
  { eexists. split; [done|]. done. }
  destruct (Hdata _ _ Hn1) as (nd2 & Hn2 & Hd2). cbn in Hd2.
  pose proof Hinv2 as [Hc2 _].
  pose proof (chain_split _ _ _ _ _ Hc2) as (nd2' & Hn2' & Hnext2 & _).
  rewrite Hn2 in Hn2'. injection Hn2' as <-.
  eexists nd, s1, _, s2, nd2. split_and!; try done.
  rewrite (tail_chain _ _ _ Hc2) by (rewrite length_app; cbn; lia).
  rewrite last_snoc. by destruct (without n l).
Qed.

Lemma remove_then_append_relinks_witness :
  exists nd s1 log s2 nd2,
    mem demo !! 2%positive = Some nd /\
    remove 3 (Some 2%positive) demo = Ok false s1 log /\
    mem s1 !! 2%positive = Some (mk_node (data nd) None) /\
    append 3 (Some 2%positive) s1 = Ok tt s2 [] /\
    chain_inv s2 [1; 3; 2]%positive /\
    tail 3 s2 = Ok (Some 2%positive) s2 [] /\
    mem s2 !! 2%positive = Some nd2 /\ next_node nd2 = None /\ data nd2 = data nd.
Proof.
  apply (remove_then_append_relinks demo [1; 2; 3]%positive 3 2%positive).
  - exact demo_chain_inv.
  - simpl. lia.
  - apply (bool_decide_unpack _). by vm_compute.
Defined.

(** What [remove] reports on a chain: nothing when the node is [_head],
    [ERROR] (after [WARN] on an empty list) when it returns 1, and [INFO]
    when it unlinks a node behind [_head]. *)
Lemma remove_diagnostics s l fuel n :
  chain_inv s l -> length l <= fuel ->
  exists r s' log,
    remove fuel n s = Ok r s' log /\
    (n = _head s -> r = false /\ log = []) /\
    (n <> _head s -> r = false -> log = [INFO n]) /\
    (r = true -> log = (if l is [] then [WARN] else []) ++ [ERROR n]).
Proof.
  intros Hinv Hfuel. pose proof Hinv as [Hc Hnd].
  pose proof (chain_hd_error _ _ _ Hc) as Hh.
  destruct n as [a|].
  - destruct (decide (a ∈ l)) as [Hin|Hnin].
    + destruct (remove_member fuel s l a) as (nd & s' & _ & Hrem & _); [done..|].
      eexists _, _, _. split; [done|]. split_and!; [| |done].
      * intros Ha. by rewrite decide_True.
      * intros Ha _. by rewrite decide_False.
    + assert (Some a <> _head s) as Hne.
      { rewrite Hh. destruct l as [|b l]; [done|].
        cbn. intros [= ->]. apply Hnin. by left. }
      eexists _, _, _. split.
      { eapply remove_not_found; [done..|by apply preceding_node_result_absent]. }
      split_and!; done.
  - destruct l as [|b l].
    + eexists _, _, _. split; [by apply remove_null_empty|]. split_and!; done.
    + eexists _, _, _. split; [by eapply remove_null_nonempty|].
      split_and!; try done. intros Hn. by rewrite Hh in Hn.
Qed.

(** C7. Removing the head of the list [1; 2; 3] returns 0 and the list
    becomes [2; 3], yet the call reports nothing: the branch
    [node == _head] returns before the [INFO] that the other successful
    path emits. *)
Theorem remove_head_reports_nothing :
  exists s',
    remove 3 (Some 1%positive) demo = Ok false s' [] /\
    chain_inv s' [2; 3]%positive.
Proof.
  destruct (remove_member 3 demo [1; 2; 3]%positive 1%positive)
    as (nd & s' & _ & Hrem & Hinv & _).
  - exact demo_chain_inv.
  - simpl. lia.
  - by left.
  - exists s'. split; [exact Hrem|exact Hinv].
Qed.

(** C8. On a state satisfying the chain invariant every operation returns,
    and the two loops need no more entries into their body than the chain
    has nodes: fuel equal to the length of the chain is enough.  ([next]
    never loops; it returns whenever its argument is [nullptr] or a live
    node.) *)
Theorem operations_terminate s l fuel n :
  chain_inv s l -> length l <= fuel ->
  returns (head s) /\
  next n s <> OutOfFuel /\
  ((forall a, n = Some a -> is_Some (mem s !! a)) -> returns (next n s)) /\
  returns (find fuel n s) /\
  returns (find_preceding_node fuel n s) /\
  returns (tail fuel s) /\
  returns (append fuel n s) /\
  returns (remove fuel n s).
Proof.
  intros Hinv Hfuel. pose proof Hinv as [Hc Hnd]. split_and!.
  - by eexists _, _, _.
  - destruct n as [a|]; [|done]. cbn. by destruct (mem s !! a).
  - intros Hlive. destruct n as [a|]; [|by eexists _, _, _].
    destruct (Hlive a) as [nd Ha]; [done|]. eexists _, _, _. by apply next_Some.
  - eexists _, _, _. by apply find_chain.
  - eexists _, _, _. by apply find_preceding_node_chain.
  - eexists _, _, _. by apply tail_chain.
  - destruct (last_cases l) as [->|(l' & t & ->)].
    + apply chain_nil in Hc. eexists _, _, _. by apply append_empty.
    + pose proof (chain_split _ _ _ _ _ Hc) as (ndt & Ht & _).
      eexists _, _, _. eapply append_nonempty; [done..| |done]. by rewrite last_snoc.
  - destruct (remove_diagnostics s l fuel n) as (r & s' & log & Hrem & _); [done..|].
    by eexists _, _, _.
Qed.

Lemma operations_terminate_witness :
  returns (head demo) /\
  next (Some 2%positive) demo <> OutOfFuel /\
  ((forall a, Some 2%positive = Some a -> is_Some (mem demo !! a)) ->
   returns (next (Some 2%positive) demo)) /\
  returns (find 3 (Some 2%positive) demo) /\
  returns (find_preceding_node 3 (Some 2%positive) demo) /\
  returns (tail 3 demo) /\
  returns (append 3 (Some 2%positive) demo) /\
  returns (remove 3 (Some 2%positive) demo).
Proof.
  apply (operations_terminate demo [1; 2; 3]%positive 3 (Some 2%positive)).
  - exact demo_chain_inv.
  - simpl. lia.
Defined.

(** ** [remove(nullptr)] *)

Lemma next_inv p s r s1 l1 :
  next p s = Ok r s1 l1 ->
  s1 = s /\ l1 = [] /\
  (p = None /\ r = None \/
   exists a nd, p = Some a /\ mem s !! a = Some nd /\ r = next_node nd).
Proof.
  destruct p as [a|]; cbn.
  - destruct (mem s !! a) as [nd|] eqn:Ha; [|done].
    intros [= <- <- <-]. split_and!; try done. right. eauto.
  - intros [= <- <- <-]. split_and!; try done. by left.
Qed.

(** In any memory, the predecessor search changes nothing and reports
    nothing. *)
Lemma find_preceding_loop_pure fuel target seek s r s' log :
  find_preceding_loop fuel target seek s = Ok r s' log -> s' = s /\ log = [].
Proof.
  revert seek. induction fuel as [|fuel IH]; intros seek; cbn [find_preceding_loop];
    intros (n & s1 & l1 & l2 & (-> & -> & _)%next_inv & H & ->)%bind_inv;
    case_decide; try done.
  - by injection H as <- <- <-.
  - by injection H as <- <- <-.
  - apply bind_inv in H as (n' & s1 & l1 & l3 & (-> & -> & _)%next_inv & H & ->).
    destruct n' as [b|].
    + by apply IH in H.
    + by injection H as <- <- <-.
Qed.

(** In any memory, what the search for [nullptr] returns is a live node
    whose [next_node] is [nullptr]. *)
Lemma find_preceding_loop_null fuel a s r s' log :
  find_preceding_loop fuel None (Some a) s = Ok r s' log ->
  exists p nd, r = Some p /\ mem s !! p = Some nd /\ next_node nd = None.
Proof.
  revert a. induction fuel as [|fuel IH]; intros a; cbn [find_preceding_loop];
    intros (n & s1 & l1 & l2 & (-> & -> & Hn)%next_inv & H & ->)%bind_inv;
    destruct Hn as [[[=] _]|(a' & nd & [= <-] & Ha & ->)];
    case_decide as Hd; try done.
  - injection H as <- <- <-. eauto.
  - injection H as <- <- <-. eauto.
  - apply bind_inv in H as (n' & s1 & l1 & l3 & (-> & -> & Hn')%next_inv & H & ->).
    destruct Hn' as [[[=] _]|(a' & nd' & [= <-] & Ha' & ->)].
    rewrite Ha in Ha'. injection Ha' as <-.
    destruct (next_node nd) as [b|]; [|done]. by apply IH in H.
Qed.

(** In any state at all, a call [remove(nullptr)] that returns has returned
    0, has changed nothing, and has reported no [ERROR]. *)
Lemma remove_null_partial s fuel r s' log :
  remove fuel None s = Ok r s' log ->
  r = false /\ s' = s /\ (log = [] \/ log = [INFO None]).
Proof.
  destruct (_head s) as [a|] eqn:Hh; cycle 1.
  { rewrite remove_null_empty by done. intros [= <- <- <-]. eauto. }
  unfold remove. rewrite (bind_pure _ _ s (_head s)) by done.
  rewrite decide_False by (by rewrite Hh).
  intros (p & s1 & l1 & l2 & Hfpn & H & ->)%bind_inv.
  unfold find_preceding_node in Hfpn.
  rewrite (bind_pure _ _ s (_head s)) in Hfpn by done. rewrite Hh in Hfpn.
  rewrite decide_False in Hfpn by done.
  pose proof (find_preceding_loop_pure _ _ _ _ _ _ _ Hfpn) as [-> ->].
  apply find_preceding_loop_null in Hfpn as (q & nd & -> & Hq & Hnext).
  revert H. unfold bind, load_next, clean_next_ptr, emit, ret. cbn.
  rewrite Hq, Hnext. cbn. rewrite Hq. cbn. intros [= <- <- <-].
  rewrite <- Hnext at 1. rewrite node_eta, insert_id by done.
  rewrite state_eta. eauto.
Qed.

Lemma find_preceding_loop_cyclic fuel :
  find_preceding_loop fuel None (Some 1%positive) cyclic = OutOfFuel.
Proof.
  assert (next (Some 1%positive) cyclic = Ok (Some 1%positive) cyclic []) as Hn
    by reflexivity.
  induction fuel as [|fuel IH]; [done|]. cbn [find_preceding_loop].
  rewrite (bind_pure _ _ _ _ Hn). rewrite decide_False by done.
  by rewrite (bind_pure _ _ _ _ Hn).
Qed.

(** C9, as stated for every handler state, fails: appending one node twice
    to an empty handler yields a handler on which [remove(nullptr)] does not
    return, however many loop iterations it is given. *)
Lemma remove_null_loops_on_cycle :
  (append 1 (Some 1%positive);; append 1 (Some 1%positive)) (empty_handler one_mem)
    = Ok tt cyclic [] /\
  forall fuel, remove fuel None cyclic = OutOfFuel.
Proof.
  split; [by vm_compute|]. intros fuel. unfold remove.
  rewrite (bind_pure _ _ cyclic (_head cyclic)) by done.
  rewrite decide_False by done. unfold find_preceding_node.
  unfold bind at 1. rewrite (bind_pure _ _ cyclic (_head cyclic)) by done.
  cbn [_head cyclic]. rewrite decide_False by done.
  by rewrite find_preceding_loop_cyclic.
Qed.

(** C9, amended.  On a state satisfying the chain invariant,
    [remove(nullptr)] returns 0 and leaves memory and [_head] as they were:
    on an empty list through the branch [node == _head], on a non-empty list
    because [find_preceding_node(nullptr)] returns the tail, whose
    [next_node] the splice overwrites with the [nullptr] it already holds.
    In every state, a call that returns has returned 0, changed nothing and
    reported no [ERROR]. *)
Theorem remove_null_succeeds :
  (forall s l fuel,
     chain_inv s l -> length l <= fuel ->
     remove fuel None s = Ok false s (if l is [] then [] else [INFO None]) /\
     (l = [] -> _head s = None) /\
     (l <> [] ->
      exists t nd, last l = Some t /\
        find_preceding_node fuel None s = Ok (Some t) s [] /\
        mem s !! t = Some nd /\ next_node nd = None)) /\
  (forall s fuel r s' log,
     remove fuel None s = Ok r s' log ->
     r = false /\ s' = s /\ ERROR None ∉ log).
Proof.
  split.
  - intros s l fuel Hinv Hfuel. pose proof Hinv as [Hc Hnd]. split_and!.
    + destruct l as [|a l].
      * apply chain_nil in Hc. by apply remove_null_empty.
      * by eapply remove_null_nonempty.
    + intros ->. by apply chain_nil in Hc.
    + intros Hl. destruct (last_cases l) as [->|(l' & t & ->)]; [done|].
      pose proof (chain_split _ _ _ _ _ Hc) as (nd & Ht & Hnext & _).
      exists t, nd. rewrite last_snoc. split_and!; try done.
      pose proof (tail_chain _ _ _ Hc Hfuel) as Htail. rewrite last_snoc in Htail.
      unfold tail in Htail. rewrite Htail. by destruct l'.
  - intros s fuel r s' log (-> & -> & Hlog)%remove_null_partial.
    split_and!; try done. destruct Hlog as [-> | ->].
    + apply not_elem_of_nil.
    + by intros [=]%list_elem_of_singleton.
Qed.

Lemma remove_null_succeeds_witness :
  remove 3 None demo = Ok false demo [INFO None] /\
  (exists t nd, last [1; 2; 3]%positive = Some t /\
     find_preceding_node 3 None demo = Ok (Some t) demo [] /\
     mem demo !! t = Some nd /\ next_node nd = None).
Proof.
  destruct (proj1 remove_null_succeeds demo [1; 2; 3]%positive 3)
    as (Hrem & _ & Htail).
  - exact demo_chain_inv.
  - simpl. lia.
  - split; [exact Hrem|]. apply Htail. discriminate.
Defined.

(** In any state with a non-null [_head], a call of [append] that returns
    has reported nothing. *)
Lemma append_silent s fuel n r s' log :
  _head s <> None -> append fuel n s = Ok r s' log -> log = [].
Proof.
  intros Hh. unfold append. rewrite (bind_pure _ _ s (_head s)) by done.
  destruct (_head s) as [a|] eqn:Ha; [|done].
  intros (p & s1 & l1 & l2 & Htail & Hst & ->)%bind_inv.
  unfold tail, find_preceding_node in Htail.
  rewrite (bind_pure _ _ s (_head s)) in Htail by done. rewrite Ha in Htail.
  rewrite decide_False in Htail by done.
  apply find_preceding_loop_pure in Htail as [-> ->].
  destruct p as [b|]; [|done]. cbn in Hst.
  destruct (mem s !! b); [|done]. by injection Hst as <- <- <-.
Qed.

(** C10. [tail()] on an empty handler returns [nullptr] and reports [WARN],
    in any memory; [append] onto a list with at least one node reports
    nothing (in any state with a non-null [_head] if it returns, and it does
    return on a chain). *)
Theorem tail_warns_append_does_not :
  (forall m fuel,
     tail fuel (empty_handler m) = Ok None (empty_handler m) [WARN]) /\
  (forall s fuel n r s' log,
     _head s <> None -> append fuel n s = Ok r s' log -> WARN ∉ log) /\
  (forall s l fuel n,
     chain_inv s l -> l <> [] -> length l <= fuel ->
     exists s', append fuel n s = Ok tt s' []).
Proof.
  split_and!.
  - done.
  - intros s fuel n r s' log Hh Happ.
    rewrite (append_silent _ _ _ _ _ _ Hh Happ). apply not_elem_of_nil.
  - intros s l fuel n [Hc _] Hl Hfuel.
    destruct (last_cases l) as [->|(l' & t & ->)]; [done|].
    pose proof (chain_split _ _ _ _ _ Hc) as (ndt & Ht & _).
    eexists. eapply append_nonempty; [done..| |done]. by rewrite last_snoc.
Qed.

Lemma tail_warns_append_does_not_witness :
  tail 0 (empty_handler demo_mem) = Ok None (empty_handler demo_mem) [WARN] /\
  (exists s', append 3 (Some 4%positive) demo = Ok tt s' []).
Proof.
  destruct tail_warns_append_does_not as (Htail & _ & Happ). split.
  - apply Htail.
  - apply (Happ demo [1; 2; 3]%positive 3 (Some 4%positive)).
    + exact demo_chain_inv.
    + discriminate.
    + simpl. lia.
Defined.

(** ** The queries in an arbitrary memory *)

Lemma find_loop_sound fuel node seek s r s' log :
  find_loop fuel node seek s = Ok r s' log ->
  s' = s /\ log = [] /\
  (r = None \/ r = node /\ reachable (mem s) seek node).
Proof.
  revert seek. induction fuel as [|fuel IH]; intros [a|]; cbn [find_loop];
    try done; try (intros [= <- <- <-]; by eauto).
  case_decide as Hd.
  - intros [= <- <- <-]. split_and!; try done. right. rewrite Hd. split; [done|].
    constructor.
  - intros (n & s1 & l1 & l2 & (-> & -> & Hn)%next_inv & H & ->)%bind_inv.
    destruct Hn as [[[=] _]|(a' & nd & [= <-] & Ha & ->)].
    apply IH in H as (-> & -> & Hr). split_and!; try done.
    destruct Hr as [->|[-> Hr]]; [by left|]. right. split; [done|].
    by econstructor.
Qed.

Lemma find_preceding_node_pure fuel target s r s' log :
  find_preceding_node fuel target s = Ok r s' log ->
  s' = s /\
  (_head s = None /\ r = None /\ log = [WARN] \/ _head s <> None /\ log = []).
Proof.
  unfold find_preceding_node. rewrite (bind_pure _ _ s (_head s)) by done.
  destruct (_head s) as [a|] eqn:Hh.
  - case_decide.
    + intros [= <- <- <-]. eauto.
    + intros [-> ->]%find_preceding_loop_pure. eauto.
  - intros [= <- <- <-]. eauto.
Qed.

(** The queries never write: in any memory, with or without a well-formed
    chain, a call of [find], [find_preceding_node], [tail] or [next] that
    returns leaves memory and [_head] as they were.  [find] and [next]
    report nothing; the other two report [WARN] exactly when [_head] is
    [nullptr], and nothing otherwise. *)
Theorem queries_change_nothing s fuel n :
  (forall r s' log, find fuel n s = Ok r s' log -> s' = s /\ log = []) /\
  (forall r s' log, next n s = Ok r s' log -> s' = s /\ log = []) /\
  (forall r s' log,
     find_preceding_node fuel n s = Ok r s' log ->
     s' = s /\ log = (if _head s is None then [WARN] else [])) /\
  (forall r s' log,
     tail fuel s = Ok r s' log ->
     s' = s /\ log = (if _head s is None then [WARN] else [])).
Proof.
  split_and!.
  - intros r s' log. unfold find. rewrite (bind_pure _ _ s (_head s)) by done.
    case_decide.
    + by intros [= <- <- <-].
    + by intros (-> & -> & _)%find_loop_sound.
  - by intros r s' log (-> & -> & _)%next_inv.
  - intros r s' log (-> & Hlog)%find_preceding_node_pure. split; [done|].
    destruct Hlog as [(-> & _ & ->)|[Hh ->]]; [done|]. by destruct (_head s).
  - intros r s' log (-> & Hlog)%find_preceding_node_pure. split; [done|].
    destruct Hlog as [(-> & _ & ->)|[Hh ->]]; [done|]. by destruct (_head s).
Qed.

Lemma queries_change_nothing_witness :
  (demo = demo /\ @nil diag = []) /\
  (empty_handler demo_mem = empty_handler demo_mem /\
   [WARN] = (if _head (empty_handler demo_mem) is None then [WARN] else [])).
Proof.
  split.
  - apply (proj1 (queries_change_nothing demo 3 (Some 2%positive))
             (Some 2%positive) demo []).
    reflexivity.
  - apply (proj2 (proj2 (proj2 (queries_change_nothing (empty_handler demo_mem) 0 None)))
             None (empty_handler demo_mem) [WARN]).
    reflexivity.
Defined.

(** [find] is sound in any memory: a call that returns gives [nullptr] or
    the node asked for, and it gives the node only if the node is reached
    from [_head] by following [next_node]. *)
Theorem find_sound s fuel n r s' log :
  find fuel n s = Ok r s' log ->
  r = None \/ r = n /\ reachable (mem s) (_head s) n.
Proof.
  unfold find. rewrite (bind_pure _ _ s (_head s)) by done. case_decide as Hd.
  - intros [= <- <- <-]. right. split; [done|]. rewrite Hd. constructor.
  - intros (_ & _ & Hr)%find_loop_sound. done.
Qed.

Lemma find_sound_witness :
  Some 3%positive = None \/
  Some 3%positive = Some 3%positive /\
  reachable (mem demo) (_head demo) (Some 3%positive).
Proof.
  apply (find_sound demo 3 (Some 3%positive) (Some 3%positive) demo []).
  reflexivity.
Defined.

Lemma find_preceding_loop_sound fuel target a s r s' log :
  find_preceding_loop fuel target (Some a) s = Ok r s' log ->
  r = None \/
  exists p nd, r = Some p /\ mem s !! p = Some nd /\ next_node nd = target /\
               reachable (mem s) (Some a) (Some p).
Proof.
  revert a. induction fuel as [|fuel IH]; intros a; cbn [find_preceding_loop];
    intros (n & s1 & l1 & l2 & (-> & -> & Hn)%next_inv & H & ->)%bind_inv;
    destruct Hn as [[[=] _]|(a' & nd & [= <-] & Ha & ->)];
    case_decide as Hd; try done.
  - injection H as <- <- <-. right. exists a, nd. split_and!; try done. constructor.
  - injection H as <- <- <-. right. exists a, nd. split_and!; try done. constructor.
  - apply bind_inv in H as (n' & s1 & l1 & l3 & (-> & -> & Hn')%next_inv & H & ->).
    destruct Hn' as [[[=] _]|(a' & nd' & [= <-] & Ha' & ->)].
    rewrite Ha in Ha'. injection Ha' as <-.
    destruct (next_node nd) as [b|] eqn:Hb.
    + apply IH in H as [->|(p & ndp & -> & Hp & Hnext & Hr)]; [by left|].
      right. exists p, ndp. split_and!; try done.
      econstructor; [done|]. by rewrite Hb.
    + injection H as <- <- <-. by left.
Qed.

(** [find_preceding_node] is sound in any memory: a node it returns is
    either [_head] itself, returned because the target is [_head], or a live
    node reached from [_head] whose [next_node] is the target. *)
Theorem find_preceding_node_sound s fuel target p s' log :
  find_preceding_node fuel target s = Ok (Some p) s' log ->
  _head s = Some p /\ target = Some p \/
  exists nd, mem s !! p = Some nd /\ next_node nd = target /\
             reachable (mem s) (_head s) (Some p).
Proof.
  unfold find_preceding_node. rewrite (bind_pure _ _ s (_head s)) by done.
  destruct (_head s) as [a|] eqn:Hh; [|done]. case_decide as Hd.
  - intros [= <- <- <-]. by left.
  - intros [[=]|(q & nd & [= <-] & Hq & Hn & Hr)]%find_preceding_loop_sound.
    right. eauto.
Qed.

Lemma find_preceding_node_sound_witness :
  _head demo = Some 2%positive /\ Some 3%positive = Some 2%positive \/
  exists nd, mem demo !! 2%positive = Some nd /\ next_node nd = Some 3%positive /\
             reachable (mem demo) (_head demo) (Some 2%positive).
Proof.
  apply (find_preceding_node_sound demo 3 (Some 3%positive) 2%positive demo []).
  reflexivity.
Defined.

(** A failing [remove] never writes, in any memory: a call that returns 1
    has left memory and [_head] as they were, was not asked for [_head], and
    its last report is the [ERROR] for the node. *)
Theorem remove_failure_changes_nothing s fuel n s' log :
  remove fuel n s = Ok true s' log ->
  s' = s /\ n <> _head s /\
  log = (if _head s is None then [WARN] else []) ++ [ERROR n].
Proof.
  unfold remove. rewrite (bind_pure _ _ s (_head s)) by done. case_decide as Hd.
  - intros (x1 & s1 & l1 & l2 & _ & H & _)%bind_inv.
    apply bind_inv in H as (x2 & s2 & l3 & l4 & _ & H & _).
    apply bind_inv in H as (x3 & s3 & l5 & l6 & _ & H & _). done.
  - intros (p & s1 & l1 & l2 & Hf & H & ->)%bind_inv.
    apply find_preceding_node_pure in Hf as (-> & Hlog).
    destruct p as [p|].
    + apply bind_inv in H as (x1 & s1 & k1 & k2 & _ & H & _).
      apply bind_inv in H as (x2 & s2 & k3 & k4 & _ & H & _).
      apply bind_inv in H as (x3 & s3 & k5 & k6 & _ & H & _).
      apply bind_inv in H as (x4 & s4 & k7 & k8 & _ & H & _).
      apply bind_inv in H as (x5 & s5 & k9 & k10 & _ & H & _). done.
    + injection H as <- <-. split_and!; try done.
      destruct Hlog as [(-> & _ & ->)|[Hh ->]]; [done|]. by destruct (_head s).
Qed.

Lemma remove_failure_changes_nothing_witness :
  demo = demo /\ Some 4%positive <> _head demo /\
  [ERROR (Some 4%positive)] =
    (if _head demo is None then [WARN] else []) ++ [ERROR (Some 4%positive)].
Proof.
  apply (remove_failure_changes_nothing demo 3 (Some 4%positive) demo
           [ERROR (Some 4%positive)]).
  reflexivity.
Defined.

(** ** How the operations compose *)

Lemma remove_absent fuel s l a :
  chain_inv s l -> length l <= fuel -> a ∉ l ->
  remove fuel (Some a) s =
    Ok true s ((if l is [] then [WARN] else []) ++ [ERROR (Some a)]).
Proof.
  intros [Hc _] Hfuel Ha.
  eapply remove_not_found; [done..| |by apply preceding_node_result_absent].
  rewrite (chain_hd_error _ _ _ Hc). destruct l as [|b l]; [done|].
  cbn. intros [= ->]. apply Ha. by left.
Qed.

Lemma elem_of_without n l x :
  NoDup l -> x ∈ without n l <-> x ∈ l /\ x <> n.
Proof.
  intros Hnd. destruct (decide (n ∈ l)) as [Hin|Hnin].
  - apply list_elem_of_split_l in Hin as (k1 & k2 & -> & Hk1).
    rewrite without_app by done.
    apply NoDup_app in Hnd as (_ & _ & [Hk2 _]%NoDup_cons).
    rewrite !elem_of_app, elem_of_cons. split.
    + intros [?|?]; (split; [tauto|]); intros ->; done.
    + intros [[?|[?|?]] ?]; tauto.
  - rewrite without_absent by done. split; [|tauto].
    intros Hx. split; [done|]. by intros ->.
Qed.

(** Appending a fresh node and removing it again restores the state
    exactly: memory and [_head] are what they were before the two calls. *)
Theorem append_then_remove_restores s l fuel n :
  chain_inv s l -> length l < fuel -> fresh (mem s) n -> n ∉ l ->
  exists log,
    (append fuel (Some n);; remove fuel (Some n)) s = Ok false s log.
Proof.
  intros Hinv Hfuel Hfresh Hnl. pose proof Hinv as [Hc Hnd].
  pose proof Hfresh as (ndn & Hn & Hnn).
  destruct (append_fresh fuel s l n) as (s1 & Happ & Hinv1 & _); [done|lia|done..|].
  destruct (last_cases l) as [->|(l' & t & ->)].
  - apply chain_nil in Hc.
    rewrite (append_empty _ _ _ Hc) in Happ. injection Happ as <-.
    eexists. eapply bind_Ok; [by apply append_empty|].
    destruct Hinv1 as [Hc1 _]. cbn [app] in Hc1.
    rewrite (remove_head _ _ _ _ _ Hc1 Hn). cbn [mem hd_error].
    rewrite <- Hnn at 1. rewrite node_eta, insert_id by done.
    rewrite <- Hc. by rewrite state_eta.
  - pose proof (chain_split _ _ _ _ _ Hc) as (ndt & Ht & Htn & _).
    assert (n <> t) as Hnt by (intros ->; apply Hnl, elem_of_app; right; by left).
    assert (append fuel (Some n) s =
            Ok tt (mk_state (<[t := mk_node (data ndt) (Some n)]> (mem s)) (_head s)) [])
      as Happ'.
    { eapply append_nonempty; [done|lia| |done]. by rewrite last_snoc. }
    rewrite Happ' in Happ. injection Happ as <-.
    eexists. eapply bind_Ok; [done|].
    rewrite <- app_assoc in Hinv1. cbn [app] in Hinv1.
    rewrite (remove_inner fuel _ l' t n [] (mk_node (data ndt) (Some n)) ndn);
      [|done| | |].
    + cbn [mem _head hd_error data]. rewrite insert_insert_eq.
      rewrite <- Hnn at 1. rewrite node_eta.
      change (@None positive) with (@hd_error positive []). rewrite <- Htn, node_eta.
      rewrite (insert_id (mem s) t) by done. rewrite insert_id by done.
      by rewrite state_eta.
    + rewrite length_app. cbn. rewrite length_app in Hfuel. cbn in Hfuel. lia.
    + cbn [mem]. by rewrite lookup_insert_eq.
    + cbn [mem]. by rewrite lookup_insert_ne.
Qed.

Lemma append_then_remove_restores_witness :
  exists log,
    (append 4 (Some 4%positive);; remove 4 (Some 4%positive)) demo = Ok false demo log.
Proof.
  apply (append_then_remove_restores demo [1; 2; 3]%positive 4 4%positive).
  - exact demo_chain_inv.
  - simpl. lia.
  - apply demo_fresh. by left.
  - apply (bool_decide_unpack _). by vm_compute.
Defined.

(** Removing a node twice: the first call unlinks it and returns 0, the
    second returns 1, reports [ERROR] and changes nothing. *)
Theorem remove_twice s l fuel n :
  chain_inv s l -> length l <= fuel -> n ∈ l ->
  exists s1 log1 log2,
    remove fuel (Some n) s = Ok false s1 log1 /\
    remove fuel (Some n) s1 = Ok true s1 log2 /\
    ERROR (Some n) ∈ log2.
Proof.
  intros Hinv Hfuel Hin. pose proof Hinv as [_ Hnd].
  destruct (remove_member fuel s l n) as (nd & s1 & _ & Hrem & Hinv1 & _); [done..|].
  destruct (NoDup_without n l Hnd Hin) as [_ Hnw].
  pose proof (length_without n l Hin) as Hlen.
  eexists s1, _, _. split; [done|]. split.
  - apply (remove_absent fuel s1 (without n l)); [done|lia|done].
  - apply elem_of_app. right. by left.
Qed.

Lemma remove_twice_witness :
  exists s1 log1 log2,
    remove 3 (Some 3%positive) demo = Ok false s1 log1 /\
    remove 3 (Some 3%positive) s1 = Ok true s1 log2 /\
    ERROR (Some 3%positive) ∈ log2.
Proof.
  apply (remove_twice demo [1; 2; 3]%positive 3 3%positive).
  - exact demo_chain_inv.
  - simpl. lia.
  - apply (bool_decide_unpack _). by vm_compute.
Defined.

(** What the queries see after a node of the list is removed: [head()] and
    [tail()] are the first and last of the remaining nodes, [find] no longer
    finds the removed node and still finds every other node. *)
Theorem queries_after_remove s l fuel n :
  chain_inv s l -> length l <= fuel -> n ∈ l ->
  exists s1 log,
    remove fuel (Some n) s = Ok false s1 log /\
    head s1 = Ok (hd_error (without n l)) s1 [] /\
    (exists log', tail fuel s1 = Ok (last (without n l)) s1 log') /\
    find fuel (Some n) s1 = Ok None s1 [] /\
    (forall x, x ∈ l -> x <> n -> find fuel (Some x) s1 = Ok (Some x) s1 []).
Proof.
  intros Hinv Hfuel Hin. pose proof Hinv as [_ Hnd].
  destruct (remove_member fuel s l n) as (nd & s1 & _ & Hrem & [Hc1 _] & _); [done..|].
  destruct (NoDup_without n l Hnd Hin) as [_ Hnw].
  pose proof (length_without n l Hin) as Hlen.
  eexists s1, _. split; [done|]. split_and!.
  - unfold head, get_head. by rewrite (chain_hd_error _ _ _ Hc1).
  - eexists. apply tail_chain; [done|lia].
  - rewrite (find_chain _ _ _ _ Hc1) by lia. cbn. by rewrite decide_False.
  - intros x Hx Hxn. rewrite (find_chain _ _ _ _ Hc1) by lia. cbn.
    rewrite decide_True; [done|]. by apply elem_of_without.
Qed.

Lemma queries_after_remove_witness :
  exists s1 log,
    remove 3 (Some 1%positive) demo = Ok false s1 log /\
    head s1 = Ok (Some 2%positive) s1 [] /\
    (exists log', tail 3 s1 = Ok (Some 3%positive) s1 log') /\
    find 3 (Some 1%positive) s1 = Ok None s1 [] /\
    (forall x, x ∈ [1; 2; 3]%positive -> x <> 1%positive ->
               find 3 (Some x) s1 = Ok (Some x) s1 []).
Proof.
  apply (queries_after_remove demo [1; 2; 3]%positive 3 1%positive).
  - exact demo_chain_inv.
  - simpl. lia.
  - by left.
Defined.

(** [append(nullptr)] on a chain changes nothing: on an empty handler it
    stores [nullptr] into [_head], on a non-empty list it stores [nullptr]
    into the tail's [next_node], which holds it already. *)
Theorem append_null_changes_nothing s l fuel :
  chain_inv s l -> length l <= fuel -> append fuel None s = Ok tt s [].
Proof.
  intros [Hc _] Hfuel. destruct (last_cases l) as [->|(l' & t & ->)].
  - apply chain_nil in Hc. rewrite append_empty by done.
    rewrite <- Hc. by rewrite state_eta.
  - pose proof (chain_split _ _ _ _ _ Hc) as (ndt & Ht & Htn & _).
    erewrite append_nonempty; [|done..| |done]; [|by rewrite last_snoc].
    change (@None positive) with (@hd_error positive []). rewrite <- Htn, node_eta.
    rewrite insert_id by done. by rewrite state_eta.
Qed.

Lemma append_null_changes_nothing_witness :
  append 3 None demo = Ok tt demo [].
Proof.
  apply (append_null_changes_nothing demo [1; 2; 3]%positive 3).
  - exact demo_chain_inv.
  - simpl. lia.
Defined.

(** ** Traversal with [head] and [next] *)

Lemma hd_error_drop (l : list positive) k : hd_error (drop k l) = l !! k.
Proof.
  revert k. induction l as [|a l IH]; intros [|k]; cbn; try done.
Qed.

(** Walking with [head()] and [next()] enumerates the list in order:
    [head()] is the node at index 0, [next] of the node at index [i] is the
    node at index [i + 1], and [nullptr] after the last one. *)
Theorem next_walks_the_list s l i x :
  chain_inv s l -> l !! i = Some x ->
  head s = Ok (l !! 0) s [] /\ next (Some x) s = Ok (l !! S i) s [].
Proof.
  intros [Hc _] Hx. split.
  - unfold head, get_head. rewrite (chain_hd_error _ _ _ Hc). by destruct l.
  - rewrite <- (take_drop_middle _ _ _ Hx) in Hc.
    pose proof (chain_split _ _ _ _ _ Hc) as (nd & Hnd & Hnext & _).
    rewrite (next_Some _ _ _ Hnd), Hnext. by rewrite hd_error_drop.
Qed.

Lemma next_walks_the_list_witness :
  head demo = Ok (Some 1%positive) demo [] /\
  next (Some 3%positive) demo = Ok None demo [].
Proof.
  apply (next_walks_the_list demo [1; 2; 3]%positive 2 3%positive).
  - exact demo_chain_inv.
  - reflexivity.
Defined.

(** ** [append] of nodes that are not fresh *)

(** The search for [nullptr] never leaves a set of nodes whose [next_node]
    fields all point back into the set. *)
Lemma find_preceding_loop_trapped (P : positive -> Prop) s :
  (forall a, P a -> exists nd b, mem s !! a = Some nd /\ next_node nd = Some b /\ P b) ->
  forall fuel a, P a -> find_preceding_loop fuel None (Some a) s = OutOfFuel.
Proof.
  intros Hclosed. induction fuel as [|fuel IH]; intros a Ha;
    destruct (Hclosed a Ha) as (nd & b & Hnd & Hb & Pb); cbn [find_preceding_loop];
    rewrite (bind_pure _ _ _ _ (next_Some _ _ _ Hnd)), Hb;
    rewrite decide_False by done.
  - done.
  - rewrite (bind_pure _ _ _ _ (next_Some _ _ _ Hnd)), Hb. by apply IH.
Qed.

(** Appending a node that is already in the list is not detected: the call
    returns, but the tail now points back into the list, so the chain
    invariant is lost for good and [tail()] and every later [append] never
    return. *)
Theorem append_member_breaks_list s l fuel n :
  chain_inv s l -> length l <= fuel -> n ∈ l ->
  exists s',
    append fuel (Some n) s = Ok tt s' [] /\
    (forall fuel', tail fuel' s' = OutOfFuel) /\
    (forall fuel' x, append fuel' x s' = OutOfFuel) /\
    (forall l', ~ chain_inv s' l').
Proof.
  intros [Hc Hnd] Hfuel Hin.
  destruct (last_cases l) as [->|(l' & t & ->)]; [by apply elem_of_nil in Hin|].
  pose proof (chain_split _ _ _ _ _ Hc) as (ndt & Ht & _).
  eexists. split.
  { eapply append_nonempty; [done..| |done]. by rewrite last_snoc. }
  set (s' := mk_state _ _).
  assert (forall a, a ∈ l' ++ [t] ->
          exists nd b, mem s' !! a = Some nd /\ next_node nd = Some b /\ b ∈ l' ++ [t])
    as Hclosed.
  { intros a Ha. subst s'. cbn [mem]. destruct (decide (t = a)) as [<-|Hne].
    - rewrite lookup_insert_eq. eauto.
    - rewrite lookup_insert_ne by done.
      apply list_elem_of_split in Ha as (k1 & k2 & Heq). rewrite Heq in Hc.
      pose proof (chain_split _ _ _ _ _ Hc) as (nd & Ha & Hnext & _).
      destruct k2 as [|b k2].
      { apply app_inj_tail in Heq as [_ ?]. done. }
      exists nd, b. split_and!; try done. rewrite Heq.
      apply elem_of_app. right. right. by left. }
  assert (exists a, _head s' = Some a /\ a ∈ l' ++ [t]) as (a & Hh & Ha).
  { subst s'. cbn [_head]. rewrite (chain_hd_error _ _ _ Hc).
    destruct l' as [|a l']; eexists; (split; [done|]); by left. }
  assert (forall fuel', tail fuel' s' = OutOfFuel) as Htail.
  { intros fuel'. unfold tail, find_preceding_node.
    rewrite (bind_pure _ _ s' (_head s')) by done. rewrite Hh.
    rewrite decide_False by done.
    by apply (find_preceding_loop_trapped (fun a => a ∈ l' ++ [t])). }
  split_and!.
  - done.
  - intros fuel' x. unfold append. rewrite (bind_pure _ _ s' (_head s')) by done.
    rewrite Hh. unfold bind. by rewrite Htail.
  - intros k [Hk _]. pose proof (tail_chain (length k) s' k Hk) as Hret.
    rewrite Htail in Hret. by specialize (Hret ltac:(lia)).
Qed.

Lemma append_member_breaks_list_witness :
  exists s',
    append 3 (Some 2%positive) demo = Ok tt s' [] /\
    (forall fuel', tail fuel' s' = OutOfFuel) /\
    (forall fuel' x, append fuel' x s' = OutOfFuel) /\
    (forall l', ~ chain_inv s' l').
Proof.
  apply (append_member_breaks_list demo [1; 2; 3]%positive 3 2%positive).
  - exact demo_chain_inv.
  - simpl. lia.
  - apply (bool_decide_unpack _). by vm_compute.
Defined.

(** Appending a node whose [next_node] is not [nullptr] links in everything
    that hangs off it: if a chain [n :: k] that shares no node with the list
    starts at the node, the list afterwards is the old list followed by
    [n :: k]. *)
Theorem append_links_whole_chain s l fuel n k :
  chain_inv s l -> length l <= fuel ->
  chain (mem s) (Some n) (n :: k) -> NoDup (l ++ n :: k) ->
  exists s', append fuel (Some n) s = Ok tt s' [] /\ chain_inv s' (l ++ n :: k).
Proof.
  intros [Hc Hnd] Hfuel Hk Hall.
  destruct (last_cases l) as [->|(l' & t & ->)].
  - apply chain_nil in Hc. eexists. split; [by apply append_empty|]. done.
  - pose proof (chain_split _ _ _ _ _ Hc) as (ndt & Ht & _ & Hseg & _).
    eexists. split.
    { eapply append_nonempty; [done..| |done]. by rewrite last_snoc. }
    split; [|done]. cbn [mem _head].
    apply NoDup_app in Hnd as (_ & Hdisj & _).
    assert (t ∉ l') as Htl by (intros ?; eapply Hdisj; [done|by left]).
    assert (t ∉ n :: k) as Htk.
    { apply NoDup_app in Hall as (_ & Hdisj' & _). apply Hdisj'.
      apply elem_of_app. right. by left. }
    rewrite <- app_assoc. apply lseg_app. exists (Some t).
    split; [by apply lseg_insert|]. cbn [app lseg]. split; [done|].
    eexists. split; [by rewrite lookup_insert_eq|]. cbn [next_node].
    by apply (lseg_insert _ _ (n :: k)).
Qed.

Lemma two_lists_chain_inv : chain_inv two_lists [1%positive; 2%positive].
Proof.
  split.
  - repeat (split; [reflexivity|]; eexists; split; [reflexivity|]). reflexivity.
  - apply (bool_decide_unpack _). by vm_compute.
Qed.

Lemma two_lists_other : chain (mem two_lists) (Some 4%positive) [4%positive; 5%positive].
Proof.
  repeat (split; [reflexivity|]; eexists; split; [reflexivity|]). reflexivity.
Qed.

Lemma append_links_whole_chain_witness :
  exists s',
    append 2 (Some 4%positive) two_lists = Ok tt s' [] /\
    chain_inv s' [1; 2; 4; 5]%positive.
Proof.
  apply (append_links_whole_chain two_lists [1; 2]%positive 2 4%positive [5%positive]).
  - exact two_lists_chain_inv.
  - simpl. lia.
  - exact two_lists_other.
  - apply (bool_decide_unpack _). by vm_compute.
Defined.

(** ** What the mutators write *)

Lemma lseg_ext m m' p k q :
  (forall x, x ∈ k -> m' !! x = m !! x) -> lseg m p k q -> lseg m' p k q.
Proof.
  revert p. induction k as [|a k IH]; intros p Hsame; cbn; [done|].
  intros (-> & nd & Hnd & H). split; [done|]. exists nd. split.
  - rewrite Hsame; [done|by left].
  - apply IH; [|done]. intros x Hx. apply Hsame. by right.
Qed.

(** [append] writes one pointer and nothing else, whatever node is passed.
    On an empty list it stores the node into [_head] and leaves memory as it
    was; otherwise it stores the node into the tail's [next_node], keeps
    [_head] and the tail's [data], and leaves every other node as it was. *)
Theorem append_writes_one_pointer s l fuel n :
  chain_inv s l -> length l <= fuel ->
  exists s',
    append fuel n s = Ok tt s' [] /\
    (l = [] -> s' = mk_state (mem s) n) /\
    (forall t, last l = Some t ->
       _head s' = _head s /\
       exists nd, mem s !! t = Some nd /\
                  mem s' !! t = Some (mk_node (data nd) n)) /\
    (forall b, Some b <> last l -> mem s' !! b = mem s !! b) /\
    (forall b, data <$> (mem s' !! b) = data <$> (mem s !! b)).
Proof.
  intros [Hc _] Hfuel. destruct (last_cases l) as [->|(l' & t & ->)].
  - apply chain_nil in Hc. eexists. split; [by apply append_empty|]. done.
  - pose proof (chain_split _ _ _ _ _ Hc) as (ndt & Ht & _).
    eexists. split.
    { eapply append_nonempty; [done..| |done]. by rewrite last_snoc. }
    cbn [mem _head]. rewrite last_snoc. split_and!.
    + by destruct l'.
    + intros t' [= <-]. split; [done|]. exists ndt. split; [done|].
      by rewrite lookup_insert_eq.
    + intros b Hb. rewrite lookup_insert_ne; [done|congruence].
    + intros b. destruct (decide (t = b)) as [<-|Hne].
      * rewrite lookup_insert_eq, Ht. done.
      * by rewrite lookup_insert_ne.
Qed.

Lemma append_writes_one_pointer_witness :
  exists s',
    append 3 (Some 4%positive) demo = Ok tt s' [] /\
    ([1; 2; 3]%positive = [] -> s' = mk_state (mem demo) (Some 4%positive)) /\
    (forall t, last [1; 2; 3]%positive = Some t ->
       _head s' = _head demo /\
       exists nd, mem demo !! t = Some nd /\
                  mem s' !! t = Some (mk_node (data nd) (Some 4%positive))) /\
    (forall b, Some b <> last [1; 2; 3]%positive -> mem s' !! b = mem demo !! b) /\
    (forall b, data <$> (mem s' !! b) = data <$> (mem demo !! b)).
Proof.
  apply (append_writes_one_pointer demo [1; 2; 3]%positive 3 (Some 4%positive)).
  - exact demo_chain_inv.
  - simpl. lia.
Defined.

(** [remove] of a node of the list writes at most two nodes, the removed one
    and the one [find_preceding_node] returns for it; every other node is
    left as it was and no [data] field changes. *)
Theorem remove_writes_two_nodes s l fuel n :
  chain_inv s l -> length l <= fuel -> n ∈ l ->
  exists p s' log,
    find_preceding_node fuel (Some n) s = Ok p s [] /\
    remove fuel (Some n) s = Ok false s' log /\
    (forall b, b <> n -> Some b <> p -> mem s' !! b = mem s !! b) /\
    (forall b, data <$> (mem s' !! b) = data <$> (mem s !! b)).
Proof.
  intros Hinv Hfuel Hin. pose proof Hinv as [Hc Hnd].
  apply list_elem_of_split_l in Hin as (k1 & k2 & -> & Hnk1).
  pose proof (chain_split _ _ _ _ _ Hc) as (ndn & Hn & _).
  destruct (last_cases k1) as [->|(l1 & p & ->)].
  - cbn [app] in *. eexists (Some n), _, _. split_and!.
    + rewrite (find_preceding_node_chain _ _ _ _ Hc Hfuel). cbn.
      by rewrite decide_True.
    + by eapply remove_head.
    + cbn [mem]. intros b Hb _. by rewrite lookup_insert_ne.
    + cbn [mem]. intros b. destruct (decide (n = b)) as [<-|Hne].
      * by rewrite lookup_insert_eq, Hn.
      * by rewrite lookup_insert_ne.
  - rewrite <- app_assoc in *. cbn [app] in *.
    pose proof (chain_split _ _ _ _ _ Hc) as (ndp & Hp & _).
    assert ((n ∉ l1) /\ n <> p) as [Hnl1 Hnp].
    { rewrite elem_of_app, list_elem_of_singleton in Hnk1. tauto. }
    eexists (Some p), _, _. split_and!.
    + rewrite (find_preceding_node_chain _ _ _ _ Hc Hfuel).
      rewrite preceding_node_result_mid by done. by destruct l1.
    + by eapply remove_inner.
    + cbn [mem]. intros b Hb Hbp. rewrite !lookup_insert_ne; [done|congruence..].
    + cbn [mem]. intros b. destruct (decide (n = b)) as [<-|Hne].
      { rewrite lookup_insert_eq, Hn. done. }
      rewrite lookup_insert_ne by done. destruct (decide (p = b)) as [<-|Hne'].
      { rewrite lookup_insert_eq, Hp. done. }
      by rewrite lookup_insert_ne.
Qed.

Lemma remove_writes_two_nodes_witness :
  exists p s' log,
    find_preceding_node 3 (Some 3%positive) demo = Ok p demo [] /\
    remove 3 (Some 3%positive) demo = Ok false s' log /\
    (forall b, b <> 3%positive -> Some b <> p -> mem s' !! b = mem demo !! b) /\
    (forall b, data <$> (mem s' !! b) = data <$> (mem demo !! b)).
Proof.
  apply (remove_writes_two_nodes demo [1; 2; 3]%positive 3 3%positive).
  - exact demo_chain_inv.
  - simpl. lia.
  - apply (bool_decide_unpack _). by vm_compute.
Defined.

(** A chain that shares no node with the handler's list, such as the list of
    another handler, is still the same chain after any [append] and any
    [remove] on this handler. *)
Theorem other_chain_untouched s l fuel n h2 k :
  chain_inv s l -> length l <= fuel ->
  chain (mem s) h2 k -> (forall x, x ∈ k -> x ∉ l) ->
  (exists s', append fuel n s = Ok tt s' [] /\ chain (mem s') h2 k) /\
  (exists r s' log, remove fuel n s = Ok r s' log /\ chain (mem s') h2 k).
Proof.
  intros Hinv Hfuel Hk Hdisj. pose proof Hinv as [Hc Hnd]. split.
  - destruct (last_cases l) as [->|(l' & t & ->)].
    + apply chain_nil in Hc. eexists. split; [by apply append_empty|]. done.
    + pose proof (chain_split _ _ _ _ _ Hc) as (ndt & Ht & _).
      eexists. split.
      { eapply append_nonempty; [done..| |done]. by rewrite last_snoc. }
      cbn [mem]. apply lseg_insert; [|done].
      intros Htk. apply (Hdisj t Htk). apply elem_of_app. right. by left.
  - destruct n as [a|].
    + destruct (decide (a ∈ l)) as [Hin|Hnin].
      * destruct (remove_member fuel s l a)
          as (nd & s' & _ & Hrem & _ & _ & Hframe & _); [done..|].
        eexists _, s', _. split; [done|]. eapply lseg_ext; [|done].
        intros x Hx. apply Hframe. by apply Hdisj.
      * eexists _, _, _. split; [by apply (remove_absent fuel s l)|done].
    + destruct l as [|b l].
      * apply chain_nil in Hc. eexists _, _, _.
        split; [by apply remove_null_empty|done].
      * eexists _, _, _. split; [by eapply remove_null_nonempty|done].
Qed.

Lemma other_chain_untouched_witness :
  (exists s', append 2 (Some 5%positive) two_lists = Ok tt s' [] /\
              chain (mem s') (Some 4%positive) [4; 5]%positive) /\
  (exists r s' log, remove 2 (Some 5%positive) two_lists = Ok r s' log /\
                    chain (mem s') (Some 4%positive) [4; 5]%positive).
Proof.
  apply (other_chain_untouched two_lists [1; 2]%positive 2 (Some 5%positive)
           (Some 4%positive) [4; 5]%positive).
  - exact two_lists_chain_inv.
  - simpl. lia.
  - exact two_lists_other.
  - intros x Hx. revert x Hx. apply Forall_forall.
    apply (bool_decide_unpack _). by vm_compute.
Defined.

(** ** Diagnostics of [remove] *)

(** On a chain, what [remove] reports is decided by its result and by
    [_head]: [ERROR] for the node exactly when it returns 1, [WARN] exactly
    when the list is empty and the node asked for is not [nullptr], and
    [INFO] exactly when it returns 0 for something other than [_head]. *)
Theorem remove_reports s l fuel n :
  chain_inv s l -> length l <= fuel ->
  exists r s' log,
    remove fuel n s = Ok r s' log /\
    (ERROR n ∈ log <-> r = true) /\
    (WARN ∈ log <-> _head s = None /\ n <> None) /\
    (INFO n ∈ log <-> r = false /\ n <> _head s).
Proof.
  intros Hinv Hfuel. pose proof Hinv as [Hc Hnd].
  pose proof (chain_hd_error _ _ _ Hc) as Hh.
  destruct n as [a|].
  - destruct (decide (a ∈ l)) as [Hin|Hnin].
    + destruct (remove_member fuel s l a) as (nd & s' & _ & Hrem & _); [done..|].
      eexists _, _, _. split; [done|].
      assert (_head s <> None) as Hne by (rewrite Hh; by destruct Hin).
      case_decide as Hd;
        rewrite ?elem_of_cons, ?elem_of_nil; intuition congruence.
    + eexists _, _, _. split; [by apply (remove_absent fuel s l)|].
      assert (Some a <> _head s) as Hne.
      { rewrite Hh. destruct l as [|b l]; [done|].
        cbn. intros [= ->]. apply Hnin. by left. }
      destruct l as [|b l]; cbn in Hh; cbn [app];
        rewrite ?elem_of_cons, ?elem_of_nil; intuition congruence.
  - destruct l as [|b l]; cbn in Hh.
    + eexists _, _, _. split; [by apply remove_null_empty|].
      rewrite ?elem_of_cons, ?elem_of_nil; intuition congruence.
    + eexists _, _, _. split; [by eapply remove_null_nonempty|].
      rewrite ?elem_of_cons, ?elem_of_nil; intuition congruence.
Qed.

Lemma remove_reports_witness :
  exists r s' log,
    remove 3 (Some 2%positive) demo = Ok r s' log /\
    (ERROR (Some 2%positive) ∈ log <-> r = true) /\
    (WARN ∈ log <-> _head demo = None /\ Some 2%positive <> None) /\
    (INFO (Some 2%positive) ∈ log <-> r = false /\ Some 2%positive <> _head demo).
Proof.
  apply (remove_reports demo [1; 2; 3]%positive 3 (Some 2%positive)).
  - exact demo_chain_inv.
  - simpl. lia.
Defined.

(** ** How far the loops walk *)

Lemma find_loop_cut fuel n s p l :
  chain (mem s) p l -> n ∉ l -> fuel < length l ->
  find_loop fuel (Some n) p s = OutOfFuel.
Proof.
  revert p fuel. induction l as [|a l IH]; intros p fuel Hc Hn Hfuel;
    [cbn in Hfuel; lia|].
  destruct Hc as (-> & nd & Hnd & Hc). apply not_elem_of_cons in Hn as [Hna Hn].
  destruct fuel as [|fuel]; [done|]. cbn [find_loop].
  rewrite decide_False by congruence.
  rewrite (bind_pure _ _ _ _ (next_Some _ _ _ Hnd)).
  apply IH; [done..|]. cbn in Hfuel. lia.
Qed.

(** Looking for a node that is not in the list costs one loop iteration per
    node of the list: [find] returns [nullptr] with that many iterations and
    is cut off with fewer. *)
Theorem find_absent_walks_whole_list s l fuel n :
  chain_inv s l -> n ∉ l ->
  (length l <= fuel -> find fuel (Some n) s = Ok None s []) /\
  (fuel < length l -> find fuel (Some n) s = OutOfFuel).
Proof.
  intros [Hc _] Hn. split; intros Hfuel.
  - rewrite (find_chain _ _ _ _ Hc Hfuel). cbn. by rewrite decide_False.
  - unfold find. rewrite (bind_pure _ _ s (_head s)) by done.
    rewrite decide_False; [by eapply find_loop_cut|].
    rewrite (chain_hd_error _ _ _ Hc). destruct l as [|a l]; [done|].
    cbn. intros [= ->]. apply Hn. by left.
Qed.

Lemma find_absent_walks_whole_list_witness :
  find 3 (Some 4%positive) demo = Ok None demo [] /\
  find 2 (Some 4%positive) demo = OutOfFuel.
Proof.
  destruct (find_absent_walks_whole_list demo [1; 2; 3]%positive 3 4%positive)
    as [H3 _].
  { exact demo_chain_inv. }
  { apply (bool_decide_unpack _). by vm_compute. }
  destruct (find_absent_walks_whole_list demo [1; 2; 3]%positive 2 4%positive)
    as [_ H2].
  { exact demo_chain_inv. }
  { apply (bool_decide_unpack _). by vm_compute. }
  split; [apply H3|apply H2]; simpl; lia.
Defined.

Lemma find_preceding_loop_null_cost fuel s a l :
  chain (mem s) (Some a) (a :: l) ->
  (length l <= fuel ->
   find_preceding_loop fuel None (Some a) s = Ok (last (a :: l)) s []) /\
  (fuel < length l -> find_preceding_loop fuel None (Some a) s = OutOfFuel).
Proof.
  revert a fuel. induction l as [|b l IH]; intros a fuel Hc;
    destruct Hc as (_ & nd & Hnd & Hc).
  - apply chain_nil in Hc. split; [|cbn; lia]. intros _.
    destruct fuel; cbn [find_preceding_loop];
      rewrite (bind_pure _ _ _ _ (next_Some _ _ _ Hnd)), Hc; by rewrite decide_True.
  - pose proof (chain_head _ _ _ _ Hc) as Hn.
    destruct fuel as [|fuel]; cbn [find_preceding_loop];
      rewrite (bind_pure _ _ _ _ (next_Some _ _ _ Hnd)), Hn;
      rewrite decide_False by done.
    + split; [cbn; lia|done].
    + rewrite (bind_pure _ _ _ _ (next_Some _ _ _ Hnd)), Hn.
      rewrite Hn in Hc. destruct (IH b fuel Hc) as [IH1 IH2].
      rewrite last_cons_cons. split; intros Hfuel; [apply IH1|apply IH2];
        cbn in Hfuel; lia.
Qed.

(** [tail()] walks the whole list: on a list of [k + 1] nodes its loop runs
    exactly [k] times, and so does the loop of every [append] onto it. *)
Theorem tail_walks_whole_list s a l fuel n :
  chain_inv s (a :: l) ->
  (length l <= fuel ->
   tail fuel s = Ok (last (a :: l)) s [] /\ returns (append fuel n s)) /\
  (fuel < length l ->
   tail fuel s = OutOfFuel /\ append fuel n s = OutOfFuel).
Proof.
  intros [Hc _]. pose proof (chain_head _ _ _ _ Hc) as Hh.
  assert (tail fuel s = find_preceding_loop fuel None (Some a) s) as Htail.
  { unfold tail, find_preceding_node. rewrite (bind_pure _ _ s (_head s)) by done.
    rewrite Hh. by rewrite decide_False. }
  assert (append fuel n s = (do p <- tail fuel; store_next p n) s) as Happ.
  { unfold append. rewrite (bind_pure _ _ s (_head s)) by done. by rewrite Hh. }
  rewrite Hh in Hc. destruct (find_preceding_loop_null_cost fuel s a l Hc) as [H1 H2].
  rewrite Happ, Htail. split; intros Hfuel.
  - split; [by apply H1|]. unfold bind. rewrite Htail, (H1 Hfuel).
    destruct (last_cases (a :: l)) as [[=]|(l' & t & Heq)]. rewrite Heq in Hc |- *.
    pose proof (chain_split _ _ _ _ _ Hc) as (ndt & Ht & _).
    rewrite last_snoc. cbn. rewrite Ht. by eexists _, _, _.
  - split; [by apply H2|]. unfold bind. by rewrite Htail, (H2 Hfuel).
Qed.

Lemma tail_walks_whole_list_witness :
  (tail 2 demo = Ok (Some 3%positive) demo [] /\
   returns (append 2 (Some 4%positive) demo)) /\
  (tail 1 demo = OutOfFuel /\ append 1 (Some 4%positive) demo = OutOfFuel).
Proof.
  destruct (tail_walks_whole_list demo 1%positive [2; 3]%positive 2 (Some 4%positive))
    as [H2 _]; [exact demo_chain_inv|].
  destruct (tail_walks_whole_list demo 1%positive [2; 3]%positive 1 (Some 4%positive))
    as [_ H1]; [exact demo_chain_inv|].
  split; [apply H2|apply H1]; simpl; lia.
Defined.

(** ** Constructing, linking and unlinking nodes *)

(** A node constructed with the default [next_node], in any storage outside
    the list, can be appended: it becomes the tail, [find] finds it, and it
    holds the payload pointer it was constructed with. *)
Theorem construct_then_append s l fuel a d :
  chain_inv s l -> length l < fuel -> a ∉ l ->
  exists s',
    (construct a (node_ctor d None);; append fuel (Some a)) s = Ok tt s' [] /\
    chain_inv s' (l ++ [a]) /\
    mem s' !! a = Some (mk_node d None) /\
    tail fuel s' = Ok (Some a) s' [] /\
    find fuel (Some a) s' = Ok (Some a) s' [].
Proof.
  intros [Hc Hnd] Hfuel Ha.
  set (s0 := mk_state (<[a := node_ctor d None]> (mem s)) (_head s)).
  assert (chain_inv s0 l) as Hinv0 by (split; [by apply lseg_insert|done]).
  assert (mem s0 !! a = Some (mk_node d None)) as Ha0 by apply lookup_insert_eq.
  destruct (append_fresh fuel s0 l a) as (s' & Happ & Hinv' & Hframe & _);
    [done|lia|by eexists|done|].
  exists s'. pose proof Hinv' as [Hc' _].
  assert (length (l ++ [a]) <= fuel) as Hlen by (rewrite length_app; cbn; lia).
  split_and!.
  - by apply (bind_Ok _ _ s tt s0 []).
  - done.
  - by rewrite Hframe.
  - rewrite (tail_chain _ _ _ Hc' Hlen), last_snoc. by destruct l.
  - rewrite (find_chain _ _ _ _ Hc' Hlen). cbn. rewrite decide_True; [done|].
    apply elem_of_app. right. by left.
Qed.

Lemma construct_then_append_witness :
  exists s',
    (construct 7%positive (node_ctor 70 None);; append 4 (Some 7%positive)) demo
      = Ok tt s' [] /\
    chain_inv s' [1; 2; 3; 7]%positive /\
    mem s' !! 7%positive = Some (mk_node 70 None) /\
    tail 4 s' = Ok (Some 7%positive) s' [] /\
    find 4 (Some 7%positive) s' = Ok (Some 7%positive) s' [].
Proof.
  apply (construct_then_append demo [1; 2; 3]%positive 4 7%positive 70%N).
  - exact demo_chain_inv.
  - simpl. lia.
  - apply (bool_decide_unpack _). by vm_compute.
Defined.

Lemma append_all_frame fuel ns s l :
  chain_inv s l -> NoDup ns ->
  (forall n, n ∈ ns -> fresh (mem s) n /\ n ∉ l) ->
  length (l ++ ns) <= fuel ->
  exists s',
    append_all fuel ns s = Ok tt s' [] /\ chain_inv s' (l ++ ns) /\
    (forall b, b ∉ l ++ ns -> mem s' !! b = mem s !! b) /\
    (forall b nd, mem s !! b = Some nd ->
       exists nd', mem s' !! b = Some nd' /\ data nd' = data nd).
Proof.
  revert s l. induction ns as [|n ns IH]; intros s l Hinv Hnd Hfresh Hfuel.
  - exists s. rewrite app_nil_r. split_and!; eauto.
  - apply NoDup_cons in Hnd as [Hn Hnd].
    destruct (Hfresh n) as [Hfn Hnl]; [by left|].
    rewrite length_app in Hfuel. cbn in Hfuel.
    destruct (append_fresh fuel s l n) as (s1 & Happ & Hinv1 & Hframe & Hdata);
      [done|lia|done..|].
    destruct (IH s1 (l ++ [n])) as (s' & Hall & Hinv' & Hframe' & Hdata'); [done..| | |].
    + intros n' Hn'. destruct (Hfresh n') as [Hf' Hl']; [by right|]. split.
      * unfold fresh. by rewrite Hframe.
      * rewrite elem_of_app, list_elem_of_singleton. intros [?| ->]; done.
    + rewrite !length_app. cbn. lia.
    + exists s'. rewrite <- app_assoc in Hinv', Hframe'. cbn [app] in Hframe'.
      split_and!; try done.
      * cbn [append_all]. by rewrite (bind_Ok _ _ _ _ _ _ _ _ _ Happ Hall).
      * intros b Hb. rewrite Hframe' by done. apply Hframe.
        intros ?. apply Hb, elem_of_app. by left.
      * intros b nd Hb. destruct (Hdata _ _ Hb) as (nd1 & Hb1 & Hd1).
        destruct (Hdata' _ _ Hb1) as (nd' & Hb' & Hd'). exists nd'.
        split; [done|congruence].
Qed.

Lemma remove_all_members fuel ks s l :
  chain_inv s l -> length l <= fuel -> NoDup ks -> (forall k, k ∈ ks -> k ∈ l) ->
  exists s' log l',
    remove_all fuel ks s = Ok false s' log /\
    chain_inv s' l' /\ (forall x, x ∈ l' <-> x ∈ l /\ x ∉ ks) /\
    (forall k, k ∈ ks -> exists nd, mem s' !! k = Some nd /\ next_node nd = None) /\
    (forall b, b ∉ l -> mem s' !! b = mem s !! b) /\
    (forall b nd, mem s !! b = Some nd ->
       exists nd', mem s' !! b = Some nd' /\ data nd' = data nd).
Proof.
  revert s l. induction ks as [|k ks IH]; intros s l Hinv Hfuel Hnd Hsub.
  - exists s, [], l. split_and!; eauto.
    + intros x. rewrite elem_of_nil. tauto.
    + intros k Hk. by apply elem_of_nil in Hk.
  - apply NoDup_cons in Hnd as [Hk Hnd]. pose proof Hinv as [_ Hndl].
    assert (k ∈ l) as Hkl by (apply Hsub; by left).
    destruct (remove_member fuel s l k)
      as (ndk & s1 & Hk0 & Hrem & Hinv1 & Hk1 & Hframe1 & Hdata1); [done..|].
    destruct (NoDup_without k l Hndl Hkl) as [_ Hkw].
    pose proof (length_without k l Hkl) as Hlen.
    destruct (IH s1 (without k l))
      as (s' & log & l' & Hall & Hinv' & Hmem & Hnull & Hframe & Hdata);
      [done|lia|done| |].
    { intros k' Hk'. apply elem_of_without; [done|]. split; [apply Hsub; by right|].
      intros ->. done. }
    eexists s', _, l'. split_and!; try done.
    + cbn [remove_all]. eapply bind_Ok; [done|]. by eapply bind_Ok.
    + intros x. rewrite Hmem, elem_of_without, not_elem_of_cons by done. tauto.
    + intros k' [->|Hk']%elem_of_cons; [|by apply Hnull].
      rewrite Hframe by done. rewrite Hk1. eauto.
    + intros b Hb. rewrite Hframe; [by apply Hframe1|].
      rewrite elem_of_without by done. tauto.
    + intros b nd Hb. destruct (Hdata1 _ _ Hb) as (nd1 & Hb1 & Hd1).
      destruct (Hdata _ _ Hb1) as (nd' & Hb' & Hd'). exists nd'.
      split; [done|congruence].
Qed.

(** Building a list from fresh nodes and then removing all of them, in any
    order, gives back the empty handler over exactly the memory it started
    from: every call of [remove] returns 0, [_head] is [nullptr] again and
    every node is as it was before it was appended. *)
Theorem build_then_remove_all_restores m ns ks fuel :
  NoDup ns -> (forall n, n ∈ ns -> fresh m n) -> ks ≡ₚ ns -> length ns <= fuel ->
  exists log,
    (append_all fuel ns;; remove_all fuel ks) (empty_handler m)
      = Ok false (empty_handler m) log.
Proof.
  intros Hnd Hfresh Hperm Hfuel.
  destruct (append_all_frame fuel ns (empty_handler m) [])
    as (s1 & Happ & Hinv1 & Hframe1 & Hdata1); try done.
  { split; [done|constructor]. }
  { intros n Hn. split; [by apply Hfresh|apply not_elem_of_nil]. }
  cbn [app] in *.
  destruct (remove_all_members fuel ks s1 ns)
    as (s' & log & l' & Hrem & [Hc' _] & Hmem & Hnull & Hframe & Hdata); try done.
  { by rewrite Hperm. }
  { intros k Hk. by rewrite <- Hperm. }
  exists ([] ++ log). replace (empty_handler m) with s' at 2.
  { by apply (bind_Ok _ _ _ tt s1 []). }
  assert (l' = []) as ->.
  { destruct l' as [|x l']; [done|]. destruct (Hmem x) as [[Hx Hxk] _]; [by left|].
    destruct Hxk. by rewrite Hperm. }
  apply chain_nil in Hc'. destruct s' as [m' h']. cbn in *. subst h'.
  unfold empty_handler. f_equal. apply map_eq. intros b.
  destruct (decide (b ∈ ns)) as [Hb|Hb].
  - destruct (Hfresh b Hb) as (nd & Hnd0 & Hnext0).
    destruct (Hdata1 _ _ Hnd0) as (nd1 & Hb1 & Hd1).
    destruct (Hdata _ _ Hb1) as (nd' & Hb' & Hd').
    destruct (Hnull b) as (nd'' & Hb'' & Hnext''); [by rewrite Hperm|].
    rewrite Hb' in Hb''. injection Hb'' as <-. rewrite Hb', Hnd0. f_equal.
    destruct nd', nd. cbn in *. congruence.
  - by rewrite Hframe, Hframe1.
Qed.

Lemma build_then_remove_all_restores_witness :
  exists log,
    (append_all 2 [4; 5]%positive;; remove_all 2 [5; 4]%positive)
      (empty_handler demo_mem) = Ok false (empty_handler demo_mem) log.
Proof.
  apply (build_then_remove_all_restores demo_mem [4; 5]%positive [5; 4]%positive 2).
  - exact demo_NoDup.
  - exact demo_fresh.
  - apply Permutation_swap.
  - simpl. lia.
Defined.

End sl_list.
